(** * The Orienteering Problem environment of rl4co ([rl4co/envs/op.py])

    A shallow embedding of [OPEnv]: the capacity table and the constructor,
    instance generation, [_reset], [_step] and [get_reward], followed by the
    properties of the environment's specification.

    Conventions of the embedding.
    - Tensor entries of dtype float32 are read as real numbers ([R]); the
      comparisons of the source ([>], [<=]) become the boolean tests [Rgtb]
      and [Rleb].  The properties stated on this reading are those of the
      computation as the code performs it: tests of the mask, fields of the
      states, integer logic.  The prizes of [generate_data] depend on the
      rounding of a quotient and a product; for them the embedding has the
      rounding to float32 ([rnd32]) and a value without a number ([None]).
      Overflow to infinity is outside the model.
    - Indices of dtype int64 are integers ([Z]).
    - Every tensor operation of [_step] and [_reset] acts on each element of
      the batch on its own, so both are embedded on one batch element: a
      tensor of shape [batch, n] is a list of length [n], one of shape
      [batch, 1] is a scalar and [locs] of shape [batch, n, 2] is a list of
      points.  [get_reward] asserts over the whole batch ([.all()]) and is
      embedded on the list of batch elements.
    - [_step] updates the [prize], [prize_collect] and [length_capacity]
      tensors of its argument in place and hands the same tensors on in the
      next state; the embedding returns that next state.
    - Python exceptions are the [Raise] results of the [result] monad. *)

From Stdlib Require Import Reals Lra Lia ZArith List String.
From Stdlib Require Import Zfloor.
From stdpp Require Import base option list sorting gmap strings.

Local Open Scope R_scope.

(** ** Exceptions and the result monad *)

Inductive exn : Type :=
  | KeyError
  | IndexError
  | RuntimeError
  | AssertionError (msg : string).

Inductive result (A : Type) : Type :=
  | Ok (a : A)
  | Raise (e : exn).
Arguments Ok {A} a.
Arguments Raise {A} e.

#[global] Instance result_ret : MRet result := fun A a => Ok a.
#[global] Instance result_bind : MBind result := fun A B f m =>
  match m with
  | Ok a => f a
  | Raise e => Raise e
  end.

Definition raises {A} (m : result A) : Prop := exists e, m = Raise e.

(** ** Scalars, points and elementwise tensor operations *)

#[global] Instance Rle_decision (x y : R) : Decision (x <= y) := Rle_dec x y.
#[global] Instance Rlt_decision (x y : R) : Decision (x < y) := Rlt_dec x y.

(** [x <= y] and [x > y] on tensor entries. *)
Definition Rleb (x y : R) : bool := bool_decide (x <= y).
Definition Rgtb (x y : R) : bool := bool_decide (y < x).

Definition point : Type := R * R.

(** [p - q] on the coordinate dimension. *)
Definition psub (p q : point) : point := (p.1 - q.1, p.2 - q.2).

(** [.norm(p=2, dim=-1)] of a point. *)
Definition norm (p : point) : R := sqrt (p.1 * p.1 + p.2 * p.2).

(** [torch.gather] along the node dimension with a single index: an index
    outside [0, size) raises. *)
Definition gather {A} (input : list A) (index : Z) : result A :=
  if bool_decide (0 <= index)%Z then
    match input !! Z.to_nat index with
    | Some x => Ok x
    | None => Raise RuntimeError
    end
  else Raise RuntimeError.

(** [Tensor.scatter_] of one value at a single index, same bounds. *)
Definition scatter_ {A} (input : list A) (index : Z) (src : A) : result (list A) :=
  if bool_decide (0 <= index < Z.of_nat (length input))%Z
  then Ok (<[Z.to_nat index := src]> input)
  else Raise RuntimeError.

(** A binary elementwise operation with broadcasting on the node dimension:
    a dimension of size one is stretched, equal sizes are zipped, anything
    else raises. *)
Definition broadcast {A B C} (f : A -> B -> C) (xs : list A) (ys : list B)
  : result (list C) :=
  match xs, ys with
  | [x], _ => Ok (f x <$> ys)
  | _, [y] => Ok ((fun x => f x y) <$> xs)
  | _, _ =>
      if bool_decide (length xs = length ys) then Ok (zip_with f xs ys)
      else Raise RuntimeError
  end.

(** [torch.count_nonzero(mask.float(), dim=-1)]. *)
Definition count_nonzero (mask : list bool) : nat :=
  length (filter (fun b => b = true) mask).

(** ** State *)

(** The fields of the state [TensorDict], for one batch element. *)
Record State : Type := mkState {
  locs : list point;
  length_capacity : R;
  length_to_depot : list R;
  current_node : Z;
  prize : list R;
  prize_collect : R;
  action_mask : list bool
}.

(** [float("-inf")], the only reward value [_step] produces. *)
Inductive reward_t : Type :=
  | NegInf.

(** The ["next"] entry returned by [_step]. *)
Record Next : Type := mkNext {
  next : State;
  reward : reward_t;
  done : bool
}.

(** ** [OPEnv._step] *)

Definition _step (td : State) (action : Z) : result Next :=
  let current_node_ := action in
  (* Collect prize *)
  p ← gather (prize td) current_node_;
  let prize_collect_ := prize_collect td + p in
  (* Set the visited node prize to 0; the tensor is updated in place and is
     the one read below *)
  prize_ ← scatter_ (prize td) current_node_ 0;
  (* Update the used length capacity *)
  to_ ← gather (locs td) current_node_;
  from_ ← gather (locs td) (current_node td);
  let length_capacity_ := length_capacity td - norm (psub to_ from_) in
  (* Get the action mask, no zero prize nodes can be visited *)
  let mask0 := (fun x => Rgtb x 0) <$> prize_ in
  (* Nodes distance exceeding length capacity cannot be visited *)
  let length_to_next_node := (fun l => norm (psub l to_)) <$> locs td in
  length_to_next_node_and_return ←
    broadcast Rplus length_to_next_node (length_to_depot td);
  mask1 ← broadcast andb mask0
            ((fun x => Rleb x length_capacity_) <$> length_to_next_node_and_return);
  (* We are done if no available node to visit *)
  let done_ := Rleb (INR (count_nonzero mask1)) 1e-5 in
  (* If done, then set the depot be always available *)
  m0 ← match mask1 !! 0%nat with
       | Some b => Ok b
       | None => Raise IndexError
       end;
  let mask2 := <[0%nat := orb m0 done_]> mask1 in
  Ok {| next := {| locs := locs td;
                   length_capacity := length_capacity_;
                   length_to_depot := length_to_depot td;
                   current_node := current_node_;
                   prize := prize_;
                   prize_collect := prize_collect_;
                   action_mask := mask2 |};
        reward := NegInf;
        done := done_ |}.

(** ** The capacity table and [OPEnv.__init__] *)

Definition MAX_LENGTHS : gmap Z R :=
  {[ 20%Z := 2.0; 50%Z := 3.0; 100%Z := 4.0 ]}.

(** [d[k]] on a dict: a missing key raises [KeyError]. *)
Definition getitem (d : gmap Z R) (k : Z) : result R :=
  match d !! k with
  | Some v => Ok v
  | None => Raise KeyError
  end.

(** The attributes of an [OPEnv] object. *)
Record OPEnv : Type := mkOPEnv {
  num_loc : Z;
  min_loc : R;
  max_loc : R;
  min_prize : R;
  max_prize : R;
  self_length_capacity : R
}.

(** The constructor; an argument left out ([None]) takes the default of the
    signature.  The base-class constructor and [_make_spec] only build the
    tensor specs and are not part of the embedding. *)
Definition __init__ (num_loc_ : option Z)
    (min_loc_ max_loc_ min_prize_ max_prize_ : option R) : result OPEnv :=
  let num_loc_ := default 10%Z num_loc_ in
  let min_loc_ := default 0 min_loc_ in
  let max_loc_ := default 1 max_loc_ in
  let min_prize_ := default 0.01 min_prize_ in
  let max_prize_ := default 1.01 max_prize_ in
  c ← getitem MAX_LENGTHS num_loc_;
  Ok {| num_loc := num_loc_;
        min_loc := min_loc_;
        max_loc := max_loc_;
        min_prize := min_prize_;
        max_prize := max_prize_;
        self_length_capacity := c |}.

(** ** [OPEnv.generate_data] *)

(** The instance [TensorDict] of [generate_data], for one batch element. *)
Record Instance_ : Type := mkInstance {
  td_locs : list point;
  td_depot : point;
  td_prize : list R
}.

(** [.max(dim=-1)]: raises on an empty dimension. *)
Definition max_ (xs : list R) : result R :=
  match xs with
  | [] => Raise IndexError
  | x :: xs' => Ok (foldr Rmax x xs')
  end.

(** [.int()]: conversion to an integer truncates toward zero. *)
Definition to_int (x : R) : Z :=
  if bool_decide (0 <= x) then Zfloor x else Zceil x.

(** [l[i]] on a tensor dimension, [i] counted from the front. *)
Definition item {A} (l : list A) (i : nat) : result A :=
  match l !! i with
  | Some x => Ok x
  | None => Raise IndexError
  end.

(** [generate_data] read over the reals, for the properties that do not
    depend on rounding.  [sample] is the outcome of the uniform draw, the
    depot first.  The quotient by the largest distance is exact here; the
    rounding of every operation, the draw of [num_loc + 1] points and the
    draw whose largest distance is zero are in [generate_data32] below. *)
Definition generate_data (self : OPEnv) (sample : list point) : result Instance_ :=
  (* Initialize the prize *)
  prize_ ← broadcast (fun a b => norm (psub a b)) (take 1 sample) (drop 1 sample);
  m ← max_ prize_;
  let prize := (fun d => IZR (1 + to_int (d / m * 99)) / 100.0) <$> prize_ in
  depot ← item sample 0;
  Ok {| td_locs := drop 1 sample; td_depot := depot; td_prize := prize |}.

(** ** [OPEnv._reset] *)

(** [td = None] stands for a missing or empty [TensorDict]: the instance is
    then generated from [sample]. *)
Definition _reset (self : OPEnv) (td : option Instance_) (sample : list point)
  : result State :=
  td ← match td with
       | None => generate_data self sample
       | Some td => Ok td
       end;
  let observation := td_depot td :: td_locs td in
  let prize_ := 0 :: td_prize td in
  (* Initialize the current node *)
  let current_node_ := 0%Z in
  (* Initialize the capacity *)
  let length_capacity_ := self_length_capacity self in
  (* Calculate the length of each node back to the depot *)
  let length_to_depot_ := (fun l => norm (psub l (td_depot td))) <$> observation in
  (* Init the action mask *)
  let mask0 := (fun x => Rgtb x 1e-5) <$> prize_ in
  (* Calculate the distance of each node at this moment *)
  current_node_location ← gather observation current_node_;
  let length_to_next_node :=
    (fun l => norm (psub l current_node_location)) <$> observation in
  length_to_next_node_and_return ←
    broadcast Rplus length_to_next_node length_to_depot_;
  mask1 ← broadcast andb mask0
            ((fun x => Rleb x length_capacity_) <$> length_to_next_node_and_return);
  Ok {| locs := observation;
        length_capacity := length_capacity_;
        length_to_depot := length_to_depot_;
        current_node := current_node_;
        prize := prize_;
        prize_collect := 0;
        action_mask := mask1 |}.

(** ** [OPEnv.get_reward] *)

(** The test under the first assertion, on one sorted row:
    [(s[1:] == 0) | (s[1:] > s[:-1])]. *)
Definition increasing_or_zero (s : list Z) : bool :=
  forallb (fun b => b)
    (zip_with (fun cur prev => bool_decide (cur = 0)%Z || bool_decide (prev < cur)%Z)
       (drop 1 s) (take (length s - 1) s)).

Definition sum_list (xs : list R) : R := foldr Rplus 0 xs.

(** The length of one row's tour: the gathered legs, depot to first, last to
    depot. *)
Definition tour_length (locs_ : list point) (actions : list Z) : result R :=
  d ← mapM (gather locs_) actions;
  let legs :=
    sum_list (zip_with (fun a b => norm (psub a b))
                (drop 1 d) (take (length d - 1) d)) in
  first ← item d 0;
  depot ← item locs_ 0;
  last_ ← item d (length d - 1);
  Ok (legs + norm (psub first depot) + norm (psub last_ depot)).

Definition Duplicates : string := "Duplicates".
Definition Max_length_exceeded : string := "Max length exceeded".

(** A batch is a list of rows, each a state with its action sequence.  The
    amount formatted into the second assertion's message is left out. *)
Definition get_reward (self : OPEnv) (batch : list (State * list Z))
  : result (list R) :=
  (* Check that tours are valid *)
  let sorted_actions := (fun row => merge_sort Z.le row.2) <$> batch in
  (* Make sure each node visited once at most (except for depot) *)
  if negb (forallb increasing_or_zero sorted_actions)
  then Raise (AssertionError Duplicates)
  else
    length_ ← mapM (fun row => tour_length (locs row.1) row.2) batch;
    if negb (forallb (fun l => Rleb l (self_length_capacity self + 1e-5)) length_)
    then Raise (AssertionError Max_length_exceeded)
    else Ok ((fun row => prize_collect row.1) <$> batch).

(** ** Episodes *)

(** Stepping through a sequence of actions, each step from the state the
    previous one returned. *)
Fixpoint episode (td : State) (actions : list Z) : result State :=
  match actions with
  | [] => Ok td
  | a :: rest => r ← _step td a; episode (next r) rest
  end.

(** The shape invariant of a state: one entry per node in every per-node
    field, and the current node is one of them. *)
Record wf_state (td : State) : Prop := mk_wf {
  wf_prize : length (prize td) = length (locs td);
  wf_depot : length (length_to_depot td) = length (locs td);
  wf_current : (0 <= current_node td < Z.of_nat (length (locs td)))%Z
}.

(** [a] is the index of a node of [td]. *)
Definition is_node (td : State) (a : Z) : Prop :=
  (0 <= a < Z.of_nat (length (locs td)))%Z.

(** ** Definitions used in the statements and proofs *)

(** The mask before the depot is forced: a prize above the threshold [eps]
    and a round trip through the node within the capacity. *)
Definition mask_rule (eps : R) (prize_ : list R) (locs_ : list point)
    (ltd : list R) (cur : point) (cap : R) : list bool :=
  zip_with andb
    ((fun x => Rgtb x eps) <$> prize_)
    ((fun x => Rleb x cap) <$>
       zip_with Rplus ((fun l => norm (psub l cur)) <$> locs_) ltd).

(** The result of [_step] written out, given the entries it reads: the prize
    [p] and the location [x] of the chosen node and the location [y] of the
    node the agent leaves. *)
Definition step_capacity (td : State) (x y : point) : R :=
  length_capacity td - norm (psub x y).

Definition step_prize (td : State) (a : Z) : list R :=
  <[Z.to_nat a := 0]> (prize td).

Definition step_mask (td : State) (a : Z) (x y : point) : list bool :=
  mask_rule 0 (step_prize td a) (locs td) (length_to_depot td) x
    (step_capacity td x y).

Definition step_done (td : State) (a : Z) (x y : point) : bool :=
  Rleb (INR (count_nonzero (step_mask td a x y))) 1e-5.

Definition step_next (td : State) (a : Z) (p : R) (x y : point) (m0 : bool) : Next :=
  {| next := {| locs := locs td;
                length_capacity := step_capacity td x y;
                length_to_depot := length_to_depot td;
                current_node := a;
                prize := step_prize td a;
                prize_collect := prize_collect td + p;
                action_mask := <[0%nat := m0 || step_done td a x y]> (step_mask td a x y) |};
     reward := NegInf;
     done := step_done td a x y |}.

(** The Euclidean distance between two points. *)
Definition euclid (p q : point) : R :=
  sqrt ((p.1 - q.1) ^ 2 + (p.2 - q.2) ^ 2).

(** A small instance: the depot at the origin and one node at distance 0.5
    carrying prize 0.5, under capacity 2, in the state [_reset] returns. *)
Definition inst_small : Instance_ :=
  {| td_locs := [(0.5, 0)]; td_depot := (0, 0); td_prize := [0.5] |}.

Definition td_small : State :=
  {| locs := [(0, 0); (0.5, 0)];
     length_capacity := 2.0;
     length_to_depot := [0; 0.5];
     current_node := 0;
     prize := [0; 0.5];
     prize_collect := 0;
     action_mask := [false; true] |}.

(** The state [_reset] builds from an instance. *)
Definition reset_state (self : OPEnv) (td : Instance_) : State :=
  let observation := td_depot td :: td_locs td in
  let ltd := (fun l => norm (psub l (td_depot td))) <$> observation in
  {| locs := observation;
     length_capacity := self_length_capacity self;
     length_to_depot := ltd;
     current_node := 0;
     prize := 0 :: td_prize td;
     prize_collect := 0;
     action_mask := mask_rule 1e-5 (0 :: td_prize td) observation ltd
                      (td_depot td) (self_length_capacity self) |}.

(** The environment for 20 nodes. *)
Definition env20 : OPEnv :=
  {| num_loc := 20;
     min_loc := 0;
     max_loc := 1;
     min_prize := 0.01;
     max_prize := 1.01;
     self_length_capacity := 2.0 |}.

(** An instance in the unit square whose 20 nodes all sit in the corner
    opposite to the depot, each with the top prize. *)
Definition td_far : Instance_ :=
  {| td_locs := replicate 20 (1, 1);
     td_depot := (0, 0);
     td_prize := replicate 20 1 |}.

(** The draw of that instance: the depot first. *)
Definition sample_far : list point := (0, 0) :: replicate 20 (1, 1).

(** The prize [generate_data] gives a node at distance [d] when the largest
    distance is [m]. *)
Definition tier (d m : R) : Z := (1 + Zfloor (99 * d / m))%Z.

(** A draw of the depot at the origin and one node at distance 1. *)
Definition origin : point := (0, 0).

Definition unit_x : point := (1, 0).

(** The prize node [v] carries in [td]. *)
Definition prize_at (td : State) (v : Z) : R :=
  default 0 (prize td !! Z.to_nat v).

(** Some index other than 0 occurs at two positions of the row. *)
Definition repeated_nonzero (row : list Z) : Prop :=
  exists i j x, i <> j /\ row !! i = Some x /\ row !! j = Some x /\ x <> 0%Z.

(** The entries of a row other than 0. *)
Definition nonzero (row : list Z) : list Z := filter (fun x => x <> 0%Z) row.

(** The length of the path through the given points, in order. *)
Fixpoint path_length (ps : list point) : R :=
  match ps with
  | p :: (q :: _) as rest => euclid p q + path_length rest
  | _ => 0
  end.

(** The location of node [a], the origin for an index that is no node. *)
Definition loc_of (locs_ : list point) (a : Z) : point :=
  default origin (locs_ !! Z.to_nat a).

(** The tour of a row as the specification reads it: from the depot through
    the chosen nodes in order and back to the depot. *)
Definition route_length (locs_ : list point) (actions : list Z) : R :=
  path_length (loc_of locs_ 0 :: (loc_of locs_ <$> actions) ++ [loc_of locs_ 0]).

(** A row the validation is meant for: at least one action, and every
    action the index of a node. *)
Definition valid_row (row : State * list Z) : Prop :=
  row.2 <> [] /\ Forall (is_node row.1) row.2.

(** Some row of the batch repeats an index other than 0. *)
Definition some_duplicate (batch : list (State * list Z)) : Prop :=
  Exists (fun row => repeated_nonzero row.2) batch.



(** A state of an instance of three nodes. *)
Definition td_three : State :=
  {| locs := [(0, 0); (0.5, 0); (0.5, 0.5); (0, 0.5)];
     length_capacity := 2;
     length_to_depot := [0; 0.5; 0.5; 0.5];
     current_node := 0;
     prize := [0; 0.5; 0.5; 0.5];
     prize_collect := 0;
     action_mask := [false; true; true; true] |}.

(** ** Definitions for the further properties *)

(** The rule of [_step] on one node: a positive prize [p] and a round trip
    from the current location [c] through the node at [l], whose distance
    to the depot is [d], within the capacity [cap]. *)
Definition feasible (p : R) (c l : point) (d cap : R) : bool :=
  Rgtb p 0 && Rleb (euclid c l + d) cap.

(** [length_to_depot] holds the distance of every node to node 0. *)
Definition depot_distances (td : State) : Prop :=
  exists depot, locs td !! 0%nat = Some depot /\
    length_to_depot td = (fun l => euclid l depot) <$> locs td.

(** The action [a] is flagged legal by the mask of [td]. *)
Definition flagged (td : State) (a : Z) : Prop :=
  (0 <= a)%Z /\ action_mask td !! Z.to_nat a = Some true.

(** The invariant of an episode that follows the mask: the state is well
    shaped, its distances are those to the depot, the agent can still
    return to the depot, and every flagged node other than the depot
    carries a prize and allows a round trip. *)
Record safe (td : State) : Prop := mk_safe {
  safe_wf : wf_state td;
  safe_mask_length : length (action_mask td) = length (locs td);
  safe_depot : depot_distances td;
  safe_home : forall d,
    length_to_depot td !! Z.to_nat (current_node td) = Some d ->
    d <= length_capacity td;
  safe_mask : forall v p l d c,
    action_mask td !! v = Some true -> v <> 0%nat ->
    prize td !! v = Some p -> locs td !! v = Some l ->
    length_to_depot td !! v = Some d ->
    locs td !! Z.to_nat (current_node td) = Some c ->
    0 < p /\ euclid c l + d <= length_capacity td
}.

(** An episode in which every action is flagged legal in the state it is
    taken in, with the state it ends in. *)
Inductive rollout : State -> list Z -> State -> Prop :=
  | rollout_nil (td : State) : rollout td [] td
  | rollout_cons (td : State) (a : Z) (r : Next) (rest : list Z) (s : State) :
      flagged td a -> _step td a = Ok r -> rollout (next r) rest s ->
      rollout td (a :: rest) s.

(** ** [generate_data] in single precision

    The tensors of the environment are [float32].  The definitions above
    read their entries as real numbers, which is what the code computes
    wherever a result is exact.  The prizes of [generate_data] are not of
    that kind: a quotient is rounded, multiplied by 99, rounded again and
    truncated, and the tier that comes out depends on the rounding.  This
    section gives the rounding of [float32] on the reals and the prize
    computation with every operation rounded. *)

(** Rounding to the nearest integer, ties to the even one. *)
Definition ZnearestE (x : R) : Z :=
  let f := Zfloor x in
  if bool_decide (x - IZR f < 1 / 2) then f
  else if bool_decide (1 / 2 < x - IZR f) then (f + 1)%Z
  else if Z.even f then f else (f + 1)%Z.

(** The binary exponent of [x]: [2 ^ (mag x - 1) <= |x| < 2 ^ mag x] for
    [x <> 0]. *)
Definition mag (x : R) : Z := (Zfloor (ln (Rabs x) / ln 2) + 1)%Z.

(** The exponent of the last place of a [float32] of binary exponent [e]:
    24 significant bits, and 2 ^ -149 the least positive value. *)
Definition fexp32 (e : Z) : Z := Z.max (e - 24) (-149).

(** Rounding of a real number to [float32], to nearest, ties to even.
    Overflow is not part of it: the values rounded below are quotients of
    at most 1, their multiples by 99 and integer tiers. *)
Definition rnd32 (x : R) : R :=
  let c := fexp32 (mag x) in
  IZR (ZnearestE (x * powerRZ 2 (- c))) * powerRZ 2 c.

#[global] Instance Req_decision : EqDecision R := Req_dec_T.

(** A [float32] value that is finite, or [None] for one that is not a
    number, infinite, or not determined (the integer conversion of such a
    value). *)
Definition float32 : Type := option R.

(** [x / y] on [float32] scalars: a zero divisor gives no finite value. *)
Definition div32 (x y : R) : float32 :=
  if decide (y = 0) then None else Some (rnd32 (x / y)).

(** [a - b] on two points, componentwise. *)
Definition psub32 (p q : point) : point := (rnd32 (p.1 - q.1), rnd32 (p.2 - q.2)).

(** A 2-norm kernel that rounds after every operation.  The library's
    kernel may accumulate in another order or precision; the properties
    below take the kernel as a parameter [vnorm] and use this one for
    concrete instances. *)
Definition norm32 (p : point) : R :=
  rnd32 (sqrt (rnd32 (rnd32 (p.1 * p.1) + rnd32 (p.2 * p.2)))).

(** [(1 + (prize_ / max * 99).int()).float() / 100.0] on one entry [d] of
    [prize_], [m] being the maximum. *)
Definition prize32 (d m : R) : float32 :=
  q ← div32 d m;
  Some (rnd32 (rnd32 (IZR (1 + to_int (rnd32 (q * 99)))) / 100.0)).

(** The instance [TensorDict] with the prizes as [float32] values. *)
Record Instance32 : Type := mkInstance32 {
  td_locs32 : list point;
  td_depot32 : point;
  td_prize32 : list float32
}.

(** [generate_data] for one batch element.  [u i] is the [i]-th point of
    the uniform draw, of which the code takes [num_loc + 1], the depot
    first; a tensor of negative size cannot be built.  [vnorm] is the
    library's norm kernel, whose result is taken to be finite, as it is for
    the coordinates of a draw. *)
Definition generate_data32 (vnorm : point -> R) (self : OPEnv) (u : nat -> point)
  : result Instance32 :=
  (* Initialize the locations (including the depot which is always the first node) *)
  if bool_decide (num_loc self + 1 < 0)%Z then Raise RuntimeError else
  let locs_ := u <$> seq 0 (Z.to_nat (num_loc self + 1)) in
  (* Initialize the prize *)
  prize_ ← broadcast (fun a b => vnorm (psub32 a b)) (take 1 locs_) (drop 1 locs_);
  m ← max_ prize_;
  let prize := (fun d => prize32 d m) <$> prize_ in
  depot ← item locs_ 0;
  Ok {| td_locs32 := drop 1 locs_; td_depot32 := depot; td_prize32 := prize |}.

(** The distance of a node to the depot as [generate_data] computes it. *)
Definition dist32 (vnorm : point -> R) (depot l : point) : R :=
  vnorm (psub32 depot l).

(** A draw on the x-axis: the depot at the origin, the first node at
    0.390625 and every other node at 0.7734375. *)
Definition draw_axis (i : nat) : point :=
  match i with
  | O => origin
  | S O => (0.390625, 0)
  | _ => (0.7734375, 0)
  end.

(** The draw that puts every point on the depot. *)
Definition draw_depot (i : nat) : point := origin.

(** The instance of the draw on the x-axis for 20 nodes. *)
Definition inst_axis : Instance32 :=
  {| td_locs32 := (0.390625, 0) :: replicate 19 (0.7734375, 0);
     td_depot32 := origin;
     td_prize32 := Some 0.5 :: replicate 19 (Some 1) |}.

(** ** [AttentionModelPolicy] ([rl4co/models/zoo/am/policy.py])

    The encoder, the decoder and the likelihood are other modules of the
    package; the embedding covers the decode types the policy stores and the
    way [forward] completes the keyword arguments it hands to the
    decoder. *)

(** The values a keyword argument holds: [None], a string, or anything
    else. *)
Inductive pyobj : Type :=
  | PyNone
  | PyStr (s : string)
  | PyOther (n : Z).

(** The decode types stored by [__init__]. *)
Record AttentionModelPolicy : Type := mkPolicy {
  train_decode_type : string;
  val_decode_type : string;
  test_decode_type : string
}.

(** The decode-type arguments of [__init__], with their defaults. *)
Definition policy_init (train val test : option string) : AttentionModelPolicy :=
  {| train_decode_type := default "sampling"%string train;
     val_decode_type := default "greedy"%string val;
     test_decode_type := default "greedy"%string test |}.

(** The attributes of the policy whose name ends in [_decode_type]. *)
Definition decode_type_attrs (self : AttentionModelPolicy) : gmap string string :=
  {[ "train_decode_type"%string := train_decode_type self;
     "val_decode_type"%string := val_decode_type self;
     "test_decode_type"%string := test_decode_type self ]}.

(** The keyword arguments [forward] passes on, or the [AttributeError] of
    [getattr]. *)
Inductive forward_kwargs : Type :=
  | Kwargs (kw : gmap string pyobj)
  | AttributeError.

(** [getattr(self, f"{phase}_decode_type")]. *)
Definition getattr_decode_type (self : AttentionModelPolicy) (phase : string)
  : option string :=
  decode_type_attrs self !! (phase +:+ "_decode_type")%string.

(** Get decode type depending on phase:
    [if decoder_kwargs.get("decode_type", None) is None:
       decoder_kwargs["decode_type"] = getattr(self, f"{phase}_decode_type")]. *)
Definition resolve_decode_type (self : AttentionModelPolicy) (phase : string)
    (decoder_kwargs : gmap string pyobj) : forward_kwargs :=
  match default PyNone (decoder_kwargs !! "decode_type"%string) with
  | PyNone =>
      match getattr_decode_type self phase with
      | Some v => Kwargs (<["decode_type"%string := PyStr v]> decoder_kwargs)
      | None => AttributeError
      end
  | _ => Kwargs decoder_kwargs
  end.

(** * Properties *)

(** ** The result monad and the tensor primitives *)

Lemma bind_Ok {A B} (m : result A) (f : A -> result B) (b : B) :
  m ≫= f = Ok b <-> exists a, m = Ok a /\ f a = Ok b.
Proof.
  destruct m as [a|e]; simpl; split.
  - intros H. exists a. auto.
  - intros (a' & [= <-] & H). exact H.
  - intros H. discriminate H.
  - intros (a' & H & _). discriminate H.
Qed.

Lemma Rleb_true (x y : R) : Rleb x y = true <-> x <= y.
Proof. unfold Rleb. apply bool_decide_eq_true. Qed.


Lemma Rgtb_true (x y : R) : Rgtb x y = true <-> y < x.
Proof. unfold Rgtb. apply bool_decide_eq_true. Qed.

Lemma Rgtb_false (x y : R) : Rgtb x y = false <-> x <= y.
Proof. unfold Rgtb. rewrite bool_decide_eq_false. lra. Qed.

Lemma gather_Ok {A} (l : list A) (i : Z) (x : A) :
  gather l i = Ok x <-> (0 <= i)%Z /\ l !! Z.to_nat i = Some x.
Proof.
  unfold gather. case_bool_decide as Hi.
  - destruct (l !! Z.to_nat i) as [y|]; split.
    + intros [= ->]. auto.
    + intros [_ [= ->]]. reflexivity.
    + intros H. discriminate H.
    + intros [_ H]. discriminate H.
  - split; [intros H; discriminate H | intros [H _]; contradiction].
Qed.

Lemma gather_in_range {A} (l : list A) (i : Z) :
  (0 <= i < Z.of_nat (length l))%Z -> exists x, gather l i = Ok x.
Proof.
  intros Hi. destruct (lookup_lt_is_Some_2 l (Z.to_nat i)) as [x Hx]; [lia|].
  exists x. apply gather_Ok. split; [lia | exact Hx].
Qed.

Lemma scatter_Ok {A} (l l' : list A) (i : Z) (x : A) :
  scatter_ l i x = Ok l' <->
  (0 <= i < Z.of_nat (length l))%Z /\ l' = <[Z.to_nat i := x]> l.
Proof.
  unfold scatter_. case_bool_decide as Hi; split.
  - intros [= <-]. auto.
  - intros [_ ->]. reflexivity.
  - intros H. discriminate H.
  - intros [H _]. contradiction.
Qed.

Lemma broadcast_same_length {A B C} (f : A -> B -> C) xs ys :
  length xs = length ys -> broadcast f xs ys = Ok (zip_with f xs ys).
Proof.
  intros Hlen. unfold broadcast.
  destruct xs as [|x [|x' xs]], ys as [|y [|y' ys]]; try discriminate Hlen;
    try reflexivity.
  rewrite bool_decide_eq_true_2 by exact Hlen. reflexivity.
Qed.

Lemma count_nonzero_0 (mask : list bool) :
  count_nonzero mask = 0%nat <-> forall v, mask !! v = Some true -> False.
Proof.
  unfold count_nonzero. induction mask as [|b mask IH].
  - split; [intros _ v Hv; rewrite lookup_nil in Hv; discriminate Hv | reflexivity].
  - rewrite filter_cons. destruct b.
    + rewrite decide_True by reflexivity. split; [intros H; discriminate H|].
      intros H. destruct (H 0%nat). reflexivity.
    + rewrite decide_False by discriminate. rewrite IH. split.
      * intros H [|v] Hv; [discriminate Hv | exact (H v Hv)].
      * intros H v Hv. exact (H (S v) Hv).
Qed.

(** [count <= 1e-5] holds exactly for a count of zero. *)
Lemma done_iff (n : nat) : Rleb (INR n) 1e-5 = true <-> n = 0%nat.
Proof.
  rewrite Rleb_true. split.
  - intros H. destruct n as [|n]; [reflexivity|].
    pose proof (pos_INR n) as Hn. rewrite S_INR in H. lra.
  - intros ->. simpl. lra.
Qed.

(** ** The mask rule of [_step] *)

Lemma mask_rule_lookup eps prize_ locs_ ltd cur cap (v : nat) (b : bool) :
  mask_rule eps prize_ locs_ ltd cur cap !! v = Some b <->
  exists p l d, prize_ !! v = Some p /\ locs_ !! v = Some l /\ ltd !! v = Some d /\
    b = Rgtb p eps && Rleb (norm (psub l cur) + d) cap.
Proof.
  unfold mask_rule. rewrite lookup_zip_with_Some. split.
  - intros (g & c & -> & Hg & Hc).
    apply list_lookup_fmap_Some in Hg as (p & -> & Hp).
    apply list_lookup_fmap_Some in Hc as (s & -> & Hs).
    apply lookup_zip_with_Some in Hs as (n & d & -> & Hn & Hd).
    apply list_lookup_fmap_Some in Hn as (l & -> & Hl).
    exists p, l, d. auto.
  - intros (p & l & d & Hp & Hl & Hd & ->).
    exists (Rgtb p eps), (Rleb (norm (psub l cur) + d) cap).
    split; [reflexivity|]. split.
    + rewrite list_lookup_fmap, Hp. reflexivity.
    + apply list_lookup_fmap_Some. exists (norm (psub l cur) + d).
      split; [reflexivity|].
      apply lookup_zip_with_Some. exists (norm (psub l cur)), d.
      split; [reflexivity|]. split; [|exact Hd].
      rewrite list_lookup_fmap, Hl. reflexivity.
Qed.

Lemma mask_rule_length eps prize_ locs_ ltd cur cap :
  length prize_ = length locs_ -> length ltd = length locs_ ->
  length (mask_rule eps prize_ locs_ ltd cur cap) = length locs_.
Proof.
  intros Hp Hd. unfold mask_rule.
  rewrite !length_zip_with, !length_fmap, length_zip_with, length_fmap. lia.
Qed.

(** ** [_step] on a well-shaped state *)

Lemma _step_wf (td : State) (a : Z) :
  wf_state td -> is_node td a ->
  exists p x y m0,
    prize td !! Z.to_nat a = Some p /\
    locs td !! Z.to_nat a = Some x /\
    locs td !! Z.to_nat (current_node td) = Some y /\
    step_mask td a x y !! 0%nat = Some m0 /\
    _step td a = Ok (step_next td a p x y m0).
Proof.
  intros [Hp Hd Hc] Ha. unfold is_node in Ha.
  destruct (lookup_lt_is_Some_2 (prize td) (Z.to_nat a)) as [p Hlp]; [lia|].
  destruct (lookup_lt_is_Some_2 (locs td) (Z.to_nat a)) as [x Hlx]; [lia|].
  destruct (lookup_lt_is_Some_2 (locs td) (Z.to_nat (current_node td)))
    as [y Hly]; [lia|].
  assert (length (step_mask td a x y) = length (locs td)) as Hlen.
  { apply mask_rule_length; [|exact Hd].
    unfold step_prize. rewrite length_insert. exact Hp. }
  destruct (lookup_lt_is_Some_2 (step_mask td a x y) 0%nat) as [m0 Hm0]; [lia|].
  exists p, x, y, m0. repeat (split; [assumption|]).
  unfold _step.
  rewrite (proj2 (gather_Ok (prize td) a p)) by (split; [lia | exact Hlp]).
  simpl.
  rewrite (proj2 (scatter_Ok (prize td) _ a 0)) by (split; [lia | reflexivity]).
  simpl.
  rewrite (proj2 (gather_Ok (locs td) a x)) by (split; [lia | exact Hlx]).
  simpl.
  rewrite (proj2 (gather_Ok (locs td) (current_node td) y))
    by (split; [lia | exact Hly]).
  simpl.
  rewrite broadcast_same_length by (rewrite length_fmap; lia).
  simpl.
  rewrite broadcast_same_length
    by (rewrite !length_fmap, length_zip_with, length_fmap, length_insert; lia).
  simpl.
  change (zip_with andb _ _) with (step_mask td a x y).
  rewrite Hm0. reflexivity.
Qed.

Lemma step_mask_length td a x y :
  wf_state td -> length (step_mask td a x y) = length (locs td).
Proof.
  intros [Hp Hd _]. apply mask_rule_length; [|exact Hd].
  unfold step_prize. rewrite length_insert. exact Hp.
Qed.

Lemma _step_preserves_wf td a r :
  wf_state td -> is_node td a -> _step td a = Ok r -> wf_state (next r).
Proof.
  intros Hwf Ha Hr.
  destruct (_step_wf td a Hwf Ha) as (p & x & y & m0 & _ & _ & _ & _ & Heq).
  rewrite Heq in Hr. injection Hr as <-.
  destruct Hwf as [Hp Hd Hc]. split; simpl.
  - unfold step_prize. rewrite length_insert. exact Hp.
  - exact Hd.
  - exact Ha.
Qed.

(** ** [_step] on any state *)

(** What a successful [_step] returned, without assumptions on the shape of
    the state. *)
Lemma _step_inv (td : State) (a : Z) (r : Next) :
  _step td a = Ok r ->
  exists p x y mask1 m0,
    gather (prize td) a = Ok p /\
    gather (locs td) a = Ok x /\
    gather (locs td) (current_node td) = Ok y /\
    mask1 !! 0%nat = Some m0 /\
    let done_ := Rleb (INR (count_nonzero mask1)) 1e-5 in
    r = {| next := {| locs := locs td;
                      length_capacity := length_capacity td - norm (psub x y);
                      length_to_depot := length_to_depot td;
                      current_node := a;
                      prize := <[Z.to_nat a := 0]> (prize td);
                      prize_collect := prize_collect td + p;
                      action_mask := <[0%nat := m0 || done_]> mask1 |};
           reward := NegInf;
           done := done_ |}.
Proof.
  unfold _step. intros H.
  apply bind_Ok in H as (p & Hp & H).
  apply bind_Ok in H as (prize_ & Hs & H).
  apply bind_Ok in H as (x & Hx & H).
  apply bind_Ok in H as (y & Hy & H).
  apply bind_Ok in H as (l2 & Hl2 & H).
  apply bind_Ok in H as (mask1 & Hm1 & H).
  apply bind_Ok in H as (m0 & Hm0 & H).
  apply scatter_Ok in Hs as [_ ->].
  destruct (mask1 !! 0%nat) as [b|] eqn:Hb; [|discriminate Hm0].
  injection Hm0 as ->. injection H as <-.
  exists p, x, y, mask1, m0. auto.
Qed.

Lemma norm_psub (p q : point) : norm (psub p q) = euclid p q.
Proof. unfold norm, psub, euclid. simpl. f_equal. ring. Qed.

Lemma euclid_sym (p q : point) : euclid p q = euclid q p.
Proof. unfold euclid. f_equal. ring. Qed.


#[global] Arguments Rleb : simpl never.
#[global] Arguments Rgtb : simpl never.
#[global] Arguments norm : simpl never.
#[global] Arguments psub : simpl never.

(** ** A small instance *)

Lemma norm_axis (x : R) : 0 <= x -> norm (psub (x, 0) (0, 0)) = x.
Proof.
  intros Hx. unfold norm, psub. cbn [fst snd].
  replace ((x - 0) * (x - 0) + (0 - 0) * (0 - 0)) with (x * x) by ring.
  apply sqrt_square. exact Hx.
Qed.

Lemma td_small_wf : wf_state td_small.
Proof. split; simpl; [reflexivity | reflexivity | lia]. Defined.

Lemma td_small_node : is_node td_small 1.
Proof. unfold is_node. simpl. lia. Defined.

(** Visiting the node ends the episode: nothing is left to collect and the
    depot is forced into the mask. *)
Lemma td_small_step :
  exists x y,
    _step td_small 1 =
    Ok {| next := {| locs := [(0, 0); (0.5, 0)];
                     length_capacity := 2.0 - norm (psub x y);
                     length_to_depot := [0; 0.5];
                     current_node := 1;
                     prize := [0; 0];
                     prize_collect := 0 + 0.5;
                     action_mask := [true; false] |};
          reward := NegInf;
          done := true |}.
Proof.
  destruct (_step_wf td_small 1 td_small_wf td_small_node)
    as (p & x & y & m0 & Hp & Hx & Hy & Hm0 & Heq).
  exists x, y. rewrite Heq. clear Heq.
  simpl in Hp. injection Hp as <-.
  assert (step_mask td_small 1 x y = [false; false]) as Hmask.
  { unfold step_mask, mask_rule, step_prize. simpl.
    rewrite (proj2 (Rgtb_false 0 0)) by lra. reflexivity. }
  assert (step_done td_small 1 x y = true) as Hdone.
  { unfold step_done. rewrite Hmask. apply done_iff. reflexivity. }
  unfold step_next. rewrite Hdone, Hmask in *.
  simpl in Hm0. injection Hm0 as <-. reflexivity.
Qed.

(** ** Step effects and frame *)

(** C2 (step effects).  On a well-shaped state and for the index of one of
    its nodes, [_step] returns a next state in which the prize of the chosen
    node has been added to the collected prize, that node's prize is 0 (the
    other prizes are untouched), the remaining capacity has dropped by the
    Euclidean distance between the node the agent leaves and the chosen one,
    and the current node is the chosen one. *)
Theorem step_effects (td : State) (a : Z) :
  wf_state td -> is_node td a ->
  exists r p x y,
    _step td a = Ok r /\
    prize td !! Z.to_nat a = Some p /\
    locs td !! Z.to_nat a = Some x /\
    locs td !! Z.to_nat (current_node td) = Some y /\
    prize_collect (next r) = prize_collect td + p /\
    prize (next r) !! Z.to_nat a = Some 0 /\
    (forall v, v <> Z.to_nat a -> prize (next r) !! v = prize td !! v) /\
    length_capacity (next r) = length_capacity td - euclid y x /\
    current_node (next r) = a.
Proof.
  intros Hwf Ha.
  destruct (_step_wf td a Hwf Ha) as (p & x & y & m0 & Hp & Hx & Hy & _ & Heq).
  exists (step_next td a p x y m0), p, x, y.
  repeat (split; [assumption|]). simpl. unfold step_prize, step_capacity.
  split; [reflexivity|]. split.
  { apply list_lookup_insert_eq. apply lookup_lt_Some in Hp. exact Hp. }
  split.
  { intros v Hv. apply list_lookup_insert_ne. auto. }
  split; [|reflexivity].
  rewrite norm_psub, euclid_sym. reflexivity.
Qed.

Lemma step_effects_witness :
  wf_state td_small /\ is_node td_small 1 /\
  exists r p x y,
    _step td_small 1 = Ok r /\
    prize td_small !! Z.to_nat 1 = Some p /\
    locs td_small !! Z.to_nat 1 = Some x /\
    locs td_small !! Z.to_nat (current_node td_small) = Some y /\
    prize_collect (next r) = prize_collect td_small + p /\
    prize (next r) !! Z.to_nat 1 = Some 0 /\
    (forall v, v <> Z.to_nat 1 -> prize (next r) !! v = prize td_small !! v) /\
    length_capacity (next r) = length_capacity td_small - euclid y x /\
    current_node (next r) = 1%Z.
Proof.
  split; [exact td_small_wf|]. split; [exact td_small_node|].
  exact (step_effects td_small 1 td_small_wf td_small_node).
Defined.

Lemma episode_cons (td : State) (a : Z) (rest : list Z) :
  episode td (a :: rest) = _step td a ≫= fun r => episode (next r) rest.
Proof. reflexivity. Qed.

Lemma bind_ret {A B} (a : A) (f : A -> result B) : Ok a ≫= f = f a.
Proof. reflexivity. Qed.

Lemma episode_frame (acts : list Z) :
  forall td s, episode td acts = Ok s ->
    locs s = locs td /\ length_to_depot s = length_to_depot td.
Proof.
  induction acts as [|a acts IH]; intros td s H; simpl in H.
  - injection H as <-. auto.
  - apply bind_Ok in H as (r & Hr & H).
    apply _step_inv in Hr as (p & x & y & mask1 & m0 & _ & _ & _ & _ & ->).
    apply IH in H as [-> ->]. auto.
Qed.

(** C9 (frame).  The [locs] and [length_to_depot] fields of the state
    returned by [_step] are those of the input state, and so are those of
    the state reached at the end of any sequence of steps. *)
Theorem step_frame (td : State) (a : Z) (r : Next) (acts : list Z) (s : State) :
  _step td a = Ok r -> episode td acts = Ok s ->
  (locs (next r) = locs td /\ length_to_depot (next r) = length_to_depot td) /\
  (locs s = locs td /\ length_to_depot s = length_to_depot td).
Proof.
  intros Hr Hs. split.
  - apply _step_inv in Hr as (p & x & y & mask1 & m0 & _ & _ & _ & _ & ->). auto.
  - exact (episode_frame acts td s Hs).
Qed.

Lemma episode_small :
  exists r s, _step td_small 1 = Ok r /\ episode td_small [1%Z; 0%Z] = Ok s.
Proof.
  destruct td_small_step as (x & y & Hr).
  match type of Hr with _ = Ok ?r0 => set (r := r0) in Hr end.
  assert (wf_state (next r)) as Hwf
    by (split; simpl; [reflexivity | reflexivity | lia]).
  assert (is_node (next r) 0) as Hn by (unfold is_node; simpl; lia).
  destruct (_step_wf (next r) 0 Hwf Hn) as (p & x' & y' & m0 & _ & _ & _ & _ & Heq).
  exists r, (next (step_next (next r) 0 p x' y' m0)).
  split; [exact Hr|].
  rewrite episode_cons, Hr, bind_ret, episode_cons, Heq. reflexivity.
Defined.

Lemma step_frame_witness :
  exists r s,
    _step td_small 1 = Ok r /\ episode td_small [1%Z; 0%Z] = Ok s /\
    (locs (next r) = locs td_small /\
     length_to_depot (next r) = length_to_depot td_small) /\
    (locs s = locs td_small /\ length_to_depot s = length_to_depot td_small).
Proof.
  destruct episode_small as (r & s & Hr & Hs).
  exists r, s. split; [exact Hr|]. split; [exact Hs|].
  exact (step_frame td_small 1 r [1%Z; 0%Z] s Hr Hs).
Defined.

(** ** The action mask after a step *)

(** The claim of C1 read as stated fails on the small instance: after the
    node is visited the episode is done, so the depot is flagged legal while
    its prize is 0. *)
Lemma mask_sound_counterexample :
  ~ (forall r v, _step td_small 1 = Ok r ->
       action_mask (next r) !! v = Some true ->
       exists p, prize (next r) !! v = Some p /\ 0 < p).
Proof.
  intros H. destruct td_small_step as (x & y & Hr).
  destruct (H _ 0%nat Hr) as (p & Hp & Hpos); [reflexivity|].
  simpl in Hp. injection Hp as <-. lra.
Qed.

(** C1 (mask soundness), amended.  In the state returned by [_step] every
    node flagged legal either has a positive prize and a round trip (from
    the new current node to it and on to the depot) within the remaining
    capacity, or it is the depot of a finished episode, which [_step] forces
    into the mask; a node with prize 0 is flagged legal only in that second
    case. *)
Theorem mask_sound (td : State) (a : Z) (r : Next) (v : nat) :
  wf_state td -> is_node td a -> _step td a = Ok r ->
  action_mask (next r) !! v = Some true ->
  exists p l d c,
    prize (next r) !! v = Some p /\
    locs (next r) !! v = Some l /\
    length_to_depot (next r) !! v = Some d /\
    locs (next r) !! Z.to_nat (current_node (next r)) = Some c /\
    ((0 < p /\ euclid c l + d <= length_capacity (next r)) \/
     (v = 0%nat /\ done r = true)) /\
    (p = 0 -> v = 0%nat /\ done r = true).
Proof.
  intros Hwf Ha Hr Hv.
  destruct (_step_wf td a Hwf Ha) as (p0 & x & y & m0 & Hp0 & Hx & Hy & Hm0 & Heq).
  rewrite Heq in Hr. injection Hr as <-. simpl in *.
  assert (v < length (locs td))%nat as Hlt.
  { apply lookup_lt_Some in Hv. rewrite length_insert, step_mask_length in Hv; auto. }
  destruct (lookup_lt_is_Some_2 (step_mask td a x y) v) as [b Hb].
  { rewrite step_mask_length; auto. }
  pose proof Hb as Hb'.
  apply mask_rule_lookup in Hb' as (p & l & d & Hp & Hl & Hd & Hbeq).
  exists p, l, d, x. repeat (split; [assumption|]).
  assert (b = true \/ (v = 0%nat /\ step_done td a x y = true)) as Hcase.
  { destruct (decide (v = 0%nat)) as [->|Hne].
    - rewrite list_lookup_insert_eq in Hv
        by (rewrite step_mask_length; [exact Hlt | exact Hwf]).
      injection Hv as Hv. rewrite Hb in Hm0. injection Hm0 as <-.
      apply orb_true_iff in Hv as [->| ->]; auto.
    - rewrite list_lookup_insert_ne in Hv by auto.
      rewrite Hb in Hv. injection Hv as <-. auto. }
  assert (b = true -> 0 < p /\ euclid x l + d <= step_capacity td x y) as Hrule.
  { intros ->. symmetry in Hbeq. apply andb_true_iff in Hbeq as [H1 H2].
    apply Rgtb_true in H1. apply Rleb_true in H2.
    rewrite norm_psub, euclid_sym in H2. auto. }
  split.
  - destruct Hcase as [Hbt|Hdepot]; [left; auto | right; exact Hdepot].
  - intros ->. destruct Hcase as [Hbt|Hdepot]; [|exact Hdepot].
    apply Hrule in Hbt as [Hbt _]. lra.
Qed.

Lemma mask_sound_witness :
  exists r,
    wf_state td_small /\ is_node td_small 1 /\ _step td_small 1 = Ok r /\
    action_mask (next r) !! 0%nat = Some true /\
    exists p l d c,
      prize (next r) !! 0%nat = Some p /\
      locs (next r) !! 0%nat = Some l /\
      length_to_depot (next r) !! 0%nat = Some d /\
      locs (next r) !! Z.to_nat (current_node (next r)) = Some c /\
      ((0 < p /\ euclid c l + d <= length_capacity (next r)) \/
       (0%nat = 0%nat /\ done r = true)) /\
      (p = 0 -> 0%nat = 0%nat /\ done r = true).
Proof.
  destruct td_small_step as (x & y & Hr).
  eexists. split; [exact td_small_wf|]. split; [exact td_small_node|].
  split; [exact Hr|]. split; [reflexivity|].
  exact (mask_sound td_small 1 _ 0%nat td_small_wf td_small_node Hr eq_refl).
Defined.

(** C3 (depot forced), amended to the states [_step] returns.  Whenever the
    mask of such a state flags no node other than the depot, it flags the
    depot. *)
Theorem depot_forced (td : State) (a : Z) (r : Next) :
  _step td a = Ok r ->
  (forall v, v <> 0%nat -> action_mask (next r) !! v <> Some true) ->
  action_mask (next r) !! 0%nat = Some true.
Proof.
  intros Hr Hnone.
  apply _step_inv in Hr as (p & x & y & mask1 & m0 & _ & _ & _ & Hm0 & ->).
  simpl in *.
  rewrite list_lookup_insert_eq by (apply lookup_lt_Some in Hm0; exact Hm0).
  f_equal. destruct m0; [reflexivity|]. simpl.
  apply done_iff. apply count_nonzero_0. intros [|v] Hv.
  - rewrite Hm0 in Hv. discriminate Hv.
  - apply (Hnone (S v)); [lia|].
    rewrite list_lookup_insert_ne by lia. exact Hv.
Qed.

Lemma depot_forced_witness :
  exists r,
    _step td_small 1 = Ok r /\
    (forall v, v <> 0%nat -> action_mask (next r) !! v <> Some true) /\
    action_mask (next r) !! 0%nat = Some true.
Proof.
  destruct td_small_step as (x & y & Hr).
  eexists. split; [exact Hr|].
  assert (forall v, v <> 0%nat ->
            [true; false] !! v <> Some true) as Hnone.
  { intros [|[|v]] Hv; [contradiction | discriminate | discriminate]. }
  split; [exact Hnone|].
  exact (depot_forced td_small 1 _ Hr Hnone).
Defined.

(** ** [_reset] on a well-shaped instance *)

Lemma _reset_wf (self : OPEnv) (td : Instance_) (sample : list point) :
  length (td_prize td) = length (td_locs td) ->
  _reset self (Some td) sample = Ok (reset_state self td).
Proof.
  intros Hlen. unfold _reset. rewrite bind_ret.
  rewrite (proj2 (gather_Ok (td_depot td :: td_locs td) 0 (td_depot td)))
    by (split; [lia | reflexivity]).
  rewrite bind_ret.
  rewrite broadcast_same_length by (rewrite !length_fmap; reflexivity).
  rewrite bind_ret.
  rewrite broadcast_same_length
    by (rewrite !length_fmap, length_zip_with, !length_fmap; simpl; lia).
  reflexivity.
Qed.

Lemma reset_state_wf (self : OPEnv) (td : Instance_) :
  length (td_prize td) = length (td_locs td) -> wf_state (reset_state self td).
Proof.
  intros Hlen. split; simpl.
  - rewrite Hlen. reflexivity.
  - rewrite length_fmap. reflexivity.
  - lia.
Qed.

Lemma env20_init : __init__ (Some 20%Z) None None None None = Ok env20.
Proof. reflexivity. Qed.

(** The small instance's state is the one [_reset] returns. *)
Lemma td_small_reset : _reset env20 (Some inst_small) [] = Ok td_small.
Proof.
  rewrite _reset_wf by reflexivity. f_equal.
  unfold reset_state, mask_rule, td_small, inst_small. simpl.
  rewrite (norm_axis 0), (norm_axis 0.5) by lra.
  rewrite (proj2 (Rgtb_false 0 1e-5)) by lra.
  rewrite (proj2 (Rgtb_true 0.5 1e-5)) by lra.
  rewrite (proj2 (Rleb_true (0.5 + 0.5) 2.0)) by lra.
  reflexivity.
Qed.

Lemma norm_corner : 1 < norm (psub (1, 1) (0, 0)).
Proof.
  rewrite norm_psub. unfold euclid. simpl.
  rewrite <- sqrt_1 at 1. apply sqrt_lt_1_alt. lra.
Qed.

(** ** The constructor and the capacity table *)

Lemma MAX_LENGTHS_None (N : Z) :
  N <> 20%Z -> N <> 50%Z -> N <> 100%Z -> MAX_LENGTHS !! N = None.
Proof.
  intros H20 H50 H100. unfold MAX_LENGTHS.
  rewrite !lookup_insert_ne by auto. apply lookup_singleton_ne. auto.
Qed.

(** C8 (configuration error).  Constructing the environment for a node count
    other than 20, 50 and 100 raises the lookup error of the capacity table;
    for 20, 50 and 100 the constructor succeeds and the capacity of the
    environment is 2.0, 3.0 and 4.0, the entry of the table; and whenever
    the constructor succeeds the node count is one of these three and the
    capacity is the table's value for it. *)
Theorem config_error (N : Z) (lo hi pmin pmax : option R) :
  (N <> 20%Z -> N <> 50%Z -> N <> 100%Z ->
   __init__ (Some N) lo hi pmin pmax = Raise KeyError) /\
  (forall cap,
   N = 20%Z /\ cap = 2.0 \/ N = 50%Z /\ cap = 3.0 \/ N = 100%Z /\ cap = 4.0 ->
   MAX_LENGTHS !! N = Some cap /\
   exists env, __init__ (Some N) lo hi pmin pmax = Ok env /\
               num_loc env = N /\ self_length_capacity env = cap) /\
  (forall env, __init__ (Some N) lo hi pmin pmax = Ok env ->
   num_loc env = N /\
   MAX_LENGTHS !! N = Some (self_length_capacity env) /\
   (N = 20%Z /\ self_length_capacity env = 2.0 \/
    N = 50%Z /\ self_length_capacity env = 3.0 \/
    N = 100%Z /\ self_length_capacity env = 4.0)).
Proof.
  assert (forall cap, MAX_LENGTHS !! N = Some cap ->
            N = 20%Z /\ cap = 2.0 \/ N = 50%Z /\ cap = 3.0 \/
            N = 100%Z /\ cap = 4.0) as Htable.
  { intros cap Hcap.
    destruct (decide (N = 20%Z)) as [->|H20];
      [left; split; [reflexivity | injection Hcap as <-; reflexivity]|].
    destruct (decide (N = 50%Z)) as [->|H50];
      [right; left; split; [reflexivity | injection Hcap as <-; reflexivity]|].
    destruct (decide (N = 100%Z)) as [->|H100];
      [right; right; split; [reflexivity | injection Hcap as <-; reflexivity]|].
    rewrite MAX_LENGTHS_None in Hcap by assumption. discriminate Hcap. }
  split; [|split].
  - intros H20 H50 H100. unfold __init__, getitem. simpl.
    rewrite MAX_LENGTHS_None by assumption. reflexivity.
  - intros cap Hcap.
    assert (MAX_LENGTHS !! N = Some cap) as Hlook
      by (destruct Hcap as [[-> ->]|[[-> ->]|[-> ->]]]; reflexivity).
    split; [exact Hlook|].
    unfold __init__, getitem. simpl. rewrite Hlook. simpl.
    eexists. split; [reflexivity|]. split; reflexivity.
  - intros env Henv. unfold __init__, getitem in Henv. simpl in Henv.
    destruct (MAX_LENGTHS !! N) as [cap|] eqn:Hlook; simpl in Henv;
      [|discriminate Henv].
    injection Henv as <-. simpl.
    split; [reflexivity|]. split; [reflexivity|]. exact (Htable cap eq_refl).
Qed.

Lemma config_error_witness :
  (7%Z <> 20%Z /\ 7%Z <> 50%Z /\ 7%Z <> 100%Z /\
   __init__ (Some 7%Z) None None None None = Raise KeyError) /\
  (exists env, __init__ (Some 20%Z) None None None None = Ok env /\
               num_loc env = 20%Z /\ self_length_capacity env = 2.0) /\
  (exists env, __init__ (Some 50%Z) None None None None = Ok env /\
               num_loc env = 50%Z /\ self_length_capacity env = 3.0) /\
  (exists env, __init__ (Some 100%Z) None None None None = Ok env /\
               num_loc env = 100%Z /\ self_length_capacity env = 4.0) /\
  (__init__ (Some 20%Z) None None None None = Ok env20 /\
   MAX_LENGTHS !! 20%Z = Some (self_length_capacity env20)).
Proof.
  split; [|split; [|split; [|split]]].
  - assert (7%Z <> 20%Z) as H20 by lia.
    assert (7%Z <> 50%Z) as H50 by lia.
    assert (7%Z <> 100%Z) as H100 by lia.
    repeat (split; [assumption|]).
    exact (proj1 (config_error 7 None None None None) H20 H50 H100).
  - exact (proj2 (proj1 (proj2 (config_error 20 None None None None)) 2.0
                    (or_introl (conj eq_refl eq_refl)))).
  - exact (proj2 (proj1 (proj2 (config_error 50 None None None None)) 3.0
                    (or_intror (or_introl (conj eq_refl eq_refl))))).
  - exact (proj2 (proj1 (proj2 (config_error 100 None None None None)) 4.0
                    (or_intror (or_intror (conj eq_refl eq_refl))))).
  - split; [reflexivity|].
    exact (proj1 (proj2 (proj2 (proj2 (config_error 20 None None None None))
                           env20 eq_refl))).
Defined.

(** C10 (default configuration).  The default node count is 10, which is
    not a key of the capacity table, so constructing the environment with
    every argument left at its default raises the lookup error. *)
Theorem default_config_raises :
  default 10%Z None = 10%Z /\
  MAX_LENGTHS !! 10%Z = None /\
  __init__ None None None None None = Raise KeyError.
Proof. repeat split. Qed.

(** ** The initial state *)

(** C6 (reset).  For an environment built by the constructor and an
    instance with one prize per node, [_reset] returns the state whose
    current node is the depot (index 0), whose remaining capacity is the
    table's capacity for the configured node count, whose locations are the
    depot followed by the nodes, whose [length_to_depot] holds each
    location's Euclidean distance to the depot, whose prize vector is the
    instance's with a 0 put in front, whose collected prize is 0, and whose
    mask flags a node exactly when its prize exceeds 1e-5 and the distance
    from the depot to it plus its [length_to_depot] is within the
    capacity.  When no instance is passed and [generate_data] produces this
    one, [_reset] returns the same state. *)
Theorem reset_initial_state (N : option Z) (lo hi pmin pmax : option R)
    (self : OPEnv) (td : Instance_) (sample : list point) :
  __init__ N lo hi pmin pmax = Ok self ->
  length (td_prize td) = length (td_locs td) ->
  exists s,
    _reset self (Some td) sample = Ok s /\
    current_node s = 0%Z /\
    MAX_LENGTHS !! default 10%Z N = Some (length_capacity s) /\
    locs s = td_depot td :: td_locs td /\
    length (length_to_depot s) = length (locs s) /\
    (forall v l, locs s !! v = Some l ->
       length_to_depot s !! v = Some (euclid l (td_depot td))) /\
    prize s = 0 :: td_prize td /\
    prize_collect s = 0 /\
    length (action_mask s) = length (locs s) /\
    (forall v p l d,
       prize s !! v = Some p -> locs s !! v = Some l ->
       length_to_depot s !! v = Some d ->
       action_mask s !! v =
         Some (Rgtb p 1e-5 && Rleb (euclid (td_depot td) l + d) (length_capacity s))) /\
    (generate_data self sample = Ok td -> _reset self None sample = Ok s).
Proof.
  intros Hinit Hlen. exists (reset_state self td).
  split; [apply _reset_wf; exact Hlen|]. split; [reflexivity|].
  split.
  { unfold __init__ in Hinit. simpl in Hinit.
    apply bind_Ok in Hinit as (c & Hc & Hself). injection Hself as <-.
    unfold getitem in Hc. simpl.
    destruct (MAX_LENGTHS !! default 10%Z N); [|discriminate Hc].
    injection Hc as ->. reflexivity. }
  split; [reflexivity|]. split; [simpl; rewrite length_fmap; reflexivity|].
  split.
  { intros v l Hl. cbn [reset_state length_to_depot locs] in *.
    rewrite list_lookup_fmap, Hl. simpl. rewrite norm_psub. reflexivity. }
  split; [reflexivity|]. split; [reflexivity|]. split.
  { cbn [reset_state action_mask locs]. apply mask_rule_length.
    - simpl. rewrite Hlen. reflexivity.
    - rewrite length_fmap. reflexivity. }
  split.
  { intros v p l d Hp Hl Hd. cbn [reset_state action_mask length_capacity] in *.
    apply mask_rule_lookup. exists p, l, d.
    repeat (split; [assumption|]).
    rewrite norm_psub, euclid_sym. reflexivity. }
  intros Hgen. rewrite <- (_reset_wf self td sample Hlen).
  unfold _reset. rewrite Hgen. reflexivity.
Qed.

Lemma reset_initial_state_witness :
  __init__ (Some 20%Z) None None None None = Ok env20 /\
  length (td_prize td_far) = length (td_locs td_far) /\
  exists s,
    _reset env20 (Some td_far) [] = Ok s /\
    current_node s = 0%Z /\
    MAX_LENGTHS !! default 10%Z (Some 20%Z) = Some (length_capacity s) /\
    locs s = td_depot td_far :: td_locs td_far /\
    length (length_to_depot s) = length (locs s) /\
    (forall v l, locs s !! v = Some l ->
       length_to_depot s !! v = Some (euclid l (td_depot td_far))) /\
    prize s = 0 :: td_prize td_far /\
    prize_collect s = 0 /\
    length (action_mask s) = length (locs s) /\
    (forall v p l d,
       prize s !! v = Some p -> locs s !! v = Some l ->
       length_to_depot s !! v = Some d ->
       action_mask s !! v =
         Some (Rgtb p 1e-5 && Rleb (euclid (td_depot td_far) l + d) (length_capacity s))) /\
    (generate_data env20 [] = Ok td_far -> _reset env20 None [] = Ok s).
Proof.
  split; [exact env20_init|]. split; [reflexivity|].
  exact (reset_initial_state (Some 20%Z) None None None None env20 td_far []
           env20_init eq_refl).
Defined.

(** ** Generated prizes *)

Lemma foldr_Rmax_upper (x : R) (xs : list R) :
  x <= foldr Rmax x xs /\ (forall y, y ∈ xs -> y <= foldr Rmax x xs).
Proof.
  induction xs as [|z xs [IH1 IH2]]; simpl.
  - split; [lra|]. intros y Hy. apply elem_of_nil in Hy. contradiction.
  - split; [pose proof (Rmax_r z (foldr Rmax x xs)); lra|].
    intros y Hy. apply elem_of_cons in Hy as [->|Hy].
    + apply Rmax_l.
    + specialize (IH2 y Hy). pose proof (Rmax_r z (foldr Rmax x xs)). lra.
Qed.

Lemma max_upper (xs : list R) (m : R) :
  max_ xs = Ok m -> forall y, y ∈ xs -> y <= m.
Proof.
  destruct xs as [|x xs]; simpl; [intros H; discriminate H|].
  intros [= <-] y Hy. destruct (foldr_Rmax_upper x xs) as [H1 H2].
  apply elem_of_cons in Hy as [->|Hy]; auto.
Qed.

Lemma to_int_nonneg (x : R) : 0 <= x -> to_int x = Zfloor x.
Proof. intros Hx. unfold to_int. rewrite bool_decide_eq_true_2; auto. Qed.


(** What [generate_data] returns for a draw of a depot and at least one
    node, [m] being the largest distance of a node to the depot. *)
Lemma generate_data_Ok (self : OPEnv) (depot : point) (nodes : list point) (m : R) :
  max_ ((fun l => euclid l depot) <$> nodes) = Ok m ->
  generate_data self (depot :: nodes)
  = Ok {| td_locs := nodes;
          td_depot := depot;
          td_prize := (fun d => IZR (1 + to_int (d / m * 99)) / 100.0)
                        <$> ((fun l => euclid l depot) <$> nodes) |}.
Proof.
  intros Hmax.
  assert ((fun b => norm (psub depot b)) <$> nodes
          = (fun l => euclid l depot) <$> nodes) as Hds.
  { apply list_fmap_ext. intros i l _. rewrite norm_psub. apply euclid_sym. }
  unfold generate_data.
  change (take 1 (depot :: nodes)) with [depot].
  change (drop 1 (depot :: nodes)) with nodes.
  unfold broadcast. rewrite bind_ret, Hds, Hmax, bind_ret. reflexivity.
Qed.


(** ** The mask of the initial state *)

(** With every node in the corner opposite to the depot no round trip fits
    the capacity of 2.0, whatever the prizes. *)
Lemma reset_mask_far (td : Instance_) (v : nat) :
  td_depot td = (0, 0) -> td_locs td = replicate 20 (1, 1) ->
  action_mask (reset_state env20 td) !! v <> Some true.
Proof.
  intros Hdepot Hlocs Hv. cbn [reset_state action_mask] in Hv.
  apply mask_rule_lookup in Hv as (p & l & d & Hp & Hl & Hd & Hb).
  symmetry in Hb. apply andb_true_iff in Hb as [H1 H2].
  apply Rgtb_true in H1. apply Rleb_true in H2.
  rewrite Hdepot, Hlocs in *.
  destruct v as [|v].
  - simpl in Hp. injection Hp as <-. lra.
  - change (replicate 20 ((1, 1) : point) !! v = Some l) in Hl.
    change (((fun l => norm (psub l (0, 0))) <$> replicate 20 ((1, 1) : point)) !! v
            = Some d) in Hd.
    apply lookup_replicate in Hl as [-> Hv].
    rewrite list_lookup_fmap in Hd.
    rewrite (lookup_replicate_2 _ _ _ Hv) in Hd. injection Hd as <-.
    simpl in H2. pose proof norm_corner. lra.
Qed.

(** The draw that puts the depot in one corner of the unit square and the
    20 nodes in the opposite one. *)
Lemma generate_far :
  exists td, generate_data env20 sample_far = Ok td /\
    td_depot td = (0, 0) /\ td_locs td = replicate 20 (1, 1) /\
    length (td_prize td) = length (td_locs td).
Proof.
  assert (exists m, max_ ((fun l => euclid l (0, 0)) <$> replicate 20 (1, 1)) = Ok m)
    as [m Hm] by (eexists; reflexivity).
  eexists. split; [exact (generate_data_Ok env20 (0, 0) _ m Hm)|].
  split; [reflexivity|]. split; [reflexivity|].
  cbn [td_prize td_locs]. rewrite !length_fmap. reflexivity.
Qed.

(** The claim of C3 fails on the state [_reset] returns for that draw: no
    round trip fits the capacity, so no node is flagged legal, and neither
    is the depot. *)
Lemma depot_forced_counterexample :
  exists env s,
    __init__ (Some 20%Z) None None None None = Ok env /\
    _reset env None sample_far = Ok s /\
    (forall v, v <> 0%nat -> action_mask s !! v <> Some true) /\
    action_mask s !! 0%nat <> Some true.
Proof.
  destruct generate_far as (td & Hgen & Hdepot & Hlocs & Hlen).
  exists env20, (reset_state env20 td).
  split; [exact env20_init|]. split.
  { rewrite <- (_reset_wf env20 td sample_far Hlen).
    unfold _reset. rewrite Hgen. reflexivity. }
  split; [intros v _|]; apply reset_mask_far; assumption.
Qed.

(** ** Exclusivity *)

Lemma sum_zeroed (l : list Z) (g g' : Z -> R) (a : Z) :
  NoDup l ->
  (forall v, v ∈ l -> v <> a -> g' v = g v) ->
  g' a = 0 ->
  sum_list (g' <$> l) = sum_list (g <$> l) - (if decide (a ∈ l) then g a else 0).
Proof.
  intros Hnd Hsame Hzero. induction Hnd as [|x l Hx Hnd IH].
  - destruct (decide (a ∈ [])) as [Hin|_]; [|simpl; lra].
    apply elem_of_nil in Hin. contradiction.
  - rewrite !fmap_cons. cbn [sum_list foldr]. fold (sum_list (g' <$> l)).
    fold (sum_list (g <$> l)). rewrite IH.
    2:{ intros v Hv. apply Hsame. right. exact Hv. }
    destruct (decide (x = a)) as [->|Hne].
    + rewrite Hzero. destruct (decide (a ∈ l)) as [Hin|_]; [contradiction|].
      destruct (decide (a ∈ a :: l)) as [_|Hnin]; [lra|].
      exfalso. apply Hnin. left.
    + rewrite (Hsame x) by (auto; left).
      destruct (decide (a ∈ l)) as [Hin|Hnin];
        destruct (decide (a ∈ x :: l)) as [Hin'|Hnin']; try lra.
      * exfalso. apply Hnin'. right. exact Hin.
      * apply elem_of_cons in Hin' as [->|Hin']; contradiction.
Qed.

Lemma prize_at_step (td : State) (a : Z) (r : Next) :
  wf_state td -> is_node td a -> _step td a = Ok r ->
  prize (next r) !! Z.to_nat a = Some 0 /\
  prize_collect (next r) = prize_collect td + prize_at td a /\
  prize_at (next r) a = 0 /\
  (forall v, (0 <= v)%Z -> v <> a -> prize_at (next r) v = prize_at td v).
Proof.
  intros Hwf Ha Hr.
  destruct (_step_wf td a Hwf Ha) as (p & x & y & m0 & Hp & _ & _ & _ & Heq).
  rewrite Heq in Hr. injection Hr as <-. unfold prize_at. simpl.
  unfold step_prize. destruct Ha as [Ha0 Ha1].
  assert (<[Z.to_nat a:=0]> (prize td) !! Z.to_nat a = Some 0) as Hz.
  { apply list_lookup_insert_eq. apply lookup_lt_Some in Hp. exact Hp. }
  split; [exact Hz|]. split; [rewrite Hp; reflexivity|].
  split; [rewrite Hz; reflexivity|].
  intros v Hv Hne. rewrite list_lookup_insert_ne by lia. reflexivity.
Qed.

Lemma episode_prize (acts : list Z) :
  forall td, wf_state td -> Forall (is_node td) acts ->
  exists s, episode td acts = Ok s /\
    prize_collect s = prize_collect td + sum_list (prize_at td <$> remove_dups acts).
Proof.
  induction acts as [|a acts IH]; intros td Hwf Hall.
  - exists td. split; [reflexivity|]. simpl. lra.
  - apply Forall_cons in Hall as [Ha Hall].
    destruct (_step_wf td a Hwf Ha) as (p & x & y & m0 & _ & _ & _ & _ & Heq).
    set (r := step_next td a p x y m0) in Heq.
    destruct (prize_at_step td a r Hwf Ha Heq) as (_ & Hpc & Hzero & Hsame).
    destruct (IH (next r)) as (s & Hs & Hsum).
    { exact (_step_preserves_wf td a r Hwf Ha Heq). }
    { exact Hall. }
    exists s. split; [rewrite episode_cons, Heq; exact Hs|].
    rewrite Hsum, Hpc.
    rewrite (sum_zeroed (remove_dups acts) (prize_at td) (prize_at (next r)) a).
    + simpl remove_dups. destruct (decide_rel elem_of a acts) as [Hin|Hnin].
      * rewrite decide_True by (apply elem_of_remove_dups; exact Hin). lra.
      * rewrite decide_False by (rewrite elem_of_remove_dups; exact Hnin).
        rewrite fmap_cons. simpl. lra.
    + apply NoDup_remove_dups.
    + intros v Hv Hne. apply Hsame; [|exact Hne].
      rewrite elem_of_remove_dups in Hv.
      rewrite Forall_forall in Hall. destruct (Hall v Hv) as [H0 _]. exact H0.
    + exact Hzero.
Qed.

(** C4 (exclusivity).  After a step on node [a] the prize of [a] is 0 and a
    second step on [a] succeeds and adds 0 to the collected prize.  Over a
    whole episode the collected prize grows by the sum, over the distinct
    nodes visited, of the prize each carried at the start: no node's prize
    is added twice. *)
Theorem exclusivity (td : State) (a : Z) (r : Next) (acts : list Z) :
  wf_state td -> is_node td a -> _step td a = Ok r ->
  Forall (is_node td) acts ->
  prize (next r) !! Z.to_nat a = Some 0 /\
  (exists r2, _step (next r) a = Ok r2 /\
     prize_collect (next r2) = prize_collect (next r) + 0) /\
  (exists s, episode td acts = Ok s /\
     prize_collect s
     = prize_collect td + sum_list (prize_at td <$> remove_dups acts)).
Proof.
  intros Hwf Ha Hr Hall.
  destruct (prize_at_step td a r Hwf Ha Hr) as (Hz & _ & Hzero & _).
  split; [exact Hz|]. split; [|apply episode_prize; assumption].
  pose proof (_step_preserves_wf td a r Hwf Ha Hr) as Hwf1.
  assert (is_node (next r) a) as Ha1.
  { apply _step_inv in Hr as (p & x & y & mask1 & m0 & _ & _ & _ & _ & ->).
    exact Ha. }
  destruct (_step_wf (next r) a Hwf1 Ha1) as (p & x & y & m0 & _ & _ & _ & _ & Heq).
  eexists. split; [exact Heq|].
  destruct (prize_at_step (next r) a _ Hwf1 Ha1 Heq) as (_ & -> & _ & _).
  rewrite Hzero. reflexivity.
Qed.

Lemma exclusivity_witness :
  exists r,
    wf_state td_small /\ is_node td_small 1 /\ _step td_small 1 = Ok r /\
    Forall (is_node td_small) [1%Z; 1%Z; 0%Z] /\
    prize (next r) !! Z.to_nat 1 = Some 0 /\
    (exists r2, _step (next r) 1 = Ok r2 /\
       prize_collect (next r2) = prize_collect (next r) + 0) /\
    (exists s, episode td_small [1%Z; 1%Z; 0%Z] = Ok s /\
       prize_collect s
       = prize_collect td_small
         + sum_list (prize_at td_small <$> remove_dups [1%Z; 1%Z; 0%Z])).
Proof.
  destruct td_small_step as (x & y & Hr).
  assert (is_node td_small 0) as H0 by (unfold is_node; simpl; lia).
  assert (Forall (is_node td_small) [1%Z; 1%Z; 0%Z]) as Hall.
  { apply Forall_cons. split; [exact td_small_node|].
    apply Forall_cons. split; [exact td_small_node|].
    apply Forall_cons. split; [exact H0 | apply Forall_nil_2]. }
  eexists. split; [exact td_small_wf|]. split; [exact td_small_node|].
  split; [exact Hr|]. split; [exact Hall|].
  exact (exclusivity td_small 1 _ [1%Z; 1%Z; 0%Z]
           td_small_wf td_small_node Hr Hall).
Defined.

(** ** Tour validation: the duplicate check *)

Lemma increasing_or_zero_cons2 (a b : Z) (t : list Z) :
  increasing_or_zero (a :: b :: t)
  = (bool_decide (b = 0)%Z || bool_decide (a < b)%Z) && increasing_or_zero (b :: t).
Proof.
  unfold increasing_or_zero. simpl. rewrite Nat.sub_0_r. reflexivity.
Qed.

Lemma NoDup_nonzero_sorted (s : list Z) :
  StronglySorted Z.le s -> (increasing_or_zero s = true <-> NoDup (nonzero s)).
Proof.
  induction 1 as [|a s Hs IH Hall].
  - split; [intros _; apply NoDup_nil_2 | reflexivity].
  - destruct s as [|b t].
    + split; [|reflexivity]. intros _. unfold nonzero. rewrite filter_cons.
      destruct (decide (a <> 0%Z)); [apply NoDup_singleton | apply NoDup_nil_2].
    + rewrite increasing_or_zero_cons2, andb_true_iff, IH.
      apply Forall_cons in Hall as Hab. destruct Hab as [Hab Hat].
      unfold nonzero at 2. rewrite filter_cons. fold (nonzero (b :: t)).
      destruct (decide (a <> 0%Z)) as [Ha|Ha].
      * rewrite NoDup_cons. split.
        -- intros [Hchk Hnd]. split; [|exact Hnd].
           intros Hin. apply list_elem_of_filter in Hin as [_ Hin].
           apply orb_true_iff in Hchk as [Hb|Hb].
           ++ apply bool_decide_eq_true in Hb. subst b.
              apply StronglySorted_cons in Hs as [Hbt _].
              apply elem_of_cons in Hin as [->|Hin]; [lia|].
              rewrite Forall_forall in Hbt. specialize (Hbt a Hin). lia.
           ++ apply bool_decide_eq_true in Hb.
              apply StronglySorted_cons in Hs as [Hbt _].
              apply elem_of_cons in Hin as [->|Hin]; [lia|].
              rewrite Forall_forall in Hbt. specialize (Hbt a Hin). lia.
        -- intros [Hnin Hnd]. split; [|exact Hnd].
           apply orb_true_iff.
           destruct (decide (b = 0%Z)) as [Hb|Hb];
             [left; apply bool_decide_eq_true; exact Hb|].
           right. apply bool_decide_eq_true.
           destruct (decide (a = b)) as [->|Hne]; [|lia].
           exfalso. apply Hnin. apply list_elem_of_filter. split; [exact Hb | left].
      * assert (a = 0%Z) as -> by lia. split; [intros [_ Hnd]; exact Hnd|].
        intros Hnd. split; [|exact Hnd]. apply orb_true_iff.
        destruct (decide (b = 0%Z)) as [Hb|Hb].
        -- left. apply bool_decide_eq_true. exact Hb.
        -- right. apply bool_decide_eq_true. lia.
Qed.

Lemma repeated_nonzero_cons (y : Z) (t : list Z) :
  repeated_nonzero (y :: t) <-> (y <> 0%Z /\ y ∈ t) \/ repeated_nonzero t.
Proof.
  split.
  - intros (i & j & x & Hij & Hi & Hj & Hx).
    destruct i as [|i], j as [|j]; simpl in Hi, Hj.
    + contradiction.
    + injection Hi as <-. left. split; [exact Hx|].
      apply list_elem_of_lookup. eauto.
    + injection Hj as <-. left. split; [exact Hx|].
      apply list_elem_of_lookup. eauto.
    + right. exists i, j, x. repeat split; auto.
  - intros [[Hy Hin]|(i & j & x & Hij & Hi & Hj & Hx)].
    + apply list_elem_of_lookup in Hin as [j Hj].
      exists 0%nat, (S j), y. repeat split; auto.
    + exists (S i), (S j), x. repeat split; auto.
Qed.

Lemma repeated_nonzero_nil : ~ repeated_nonzero [].
Proof.
  intros (i & j & x & _ & Hi & _). rewrite lookup_nil in Hi. discriminate Hi.
Qed.

Lemma repeated_nonzero_dec (row : list Z) :
  repeated_nonzero row \/ ~ repeated_nonzero row.
Proof.
  induction row as [|y t IH]; [right; apply repeated_nonzero_nil|].
  rewrite repeated_nonzero_cons.
  destruct IH as [IH|IH]; [left; right; exact IH|].
  destruct (decide (y <> 0%Z /\ y ∈ t)) as [Hy|Hy]; [left; left; exact Hy|].
  right. intros [H|H]; contradiction.
Qed.

Lemma NoDup_nonzero_repeated (row : list Z) :
  NoDup (nonzero row) <-> ~ repeated_nonzero row.
Proof.
  induction row as [|y t IH].
  - split; [intros _; apply repeated_nonzero_nil | intros _; apply NoDup_nil_2].
  - rewrite repeated_nonzero_cons. unfold nonzero. rewrite filter_cons.
    fold (nonzero t).
    destruct (decide (y <> 0%Z)) as [Hy|Hy].
    + rewrite NoDup_cons, IH. unfold nonzero. rewrite list_elem_of_filter. tauto.
    + rewrite IH. tauto.
Qed.

(** The first assertion of [get_reward] passes on a row exactly when no
    index other than 0 is repeated in it. *)
Lemma duplicates_check (row : list Z) :
  increasing_or_zero (merge_sort Z.le row) = true <-> ~ repeated_nonzero row.
Proof.
  rewrite NoDup_nonzero_sorted by (apply StronglySorted_merge_sort; apply _).
  rewrite <- NoDup_nonzero_repeated. unfold nonzero.
  rewrite (merge_sort_Permutation Z.le row). reflexivity.
Qed.

(** ** Tour validation: the length of the tour *)

Lemma mapM_Ok {A B} (f : A -> result B) (g : A -> B) (l : list A) :
  Forall (fun x => f x = Ok (g x)) l -> mapM f l = Ok (g <$> l).
Proof.
  induction 1 as [|x l Hx _ IH]; [reflexivity|].
  cbn [mapM]. rewrite Hx, bind_ret. fold (mapM f l). rewrite IH. reflexivity.
Qed.

Lemma legs_path_length (d : list point) :
  sum_list (zip_with (fun a b => norm (psub a b)) (drop 1 d) (take (length d - 1) d))
  = path_length d.
Proof.
  induction d as [|p d IH]; [reflexivity|].
  destruct d as [|q t]; [reflexivity|].
  replace (length (p :: q :: t) - 1)%nat with (S (length t)) by (simpl; lia).
  replace (length (q :: t) - 1)%nat with (length t) in IH by (simpl; lia).
  change (drop 1 (p :: q :: t)) with (q :: t).
  change (drop 1 (q :: t)) with t in IH.
  change (take (S (length t)) (p :: q :: t)) with (p :: take (length t) (q :: t)).
  cbn [zip_with sum_list foldr path_length].
  fold (sum_list (zip_with (fun a b => norm (psub a b)) t (take (length t) (q :: t)))).
  rewrite IH, norm_psub, euclid_sym. reflexivity.
Qed.

Lemma path_length_snoc (ps : list point) (l q : point) :
  ps !! (length ps - 1)%nat = Some l ->
  path_length (ps ++ [q]) = path_length ps + euclid l q.
Proof.
  induction ps as [|p ps IH]; [intros H; discriminate H|].
  destruct ps as [|p' ps].
  - simpl. intros [= ->]. lra.
  - intros Hl. change (path_length ((p :: p' :: ps) ++ [q]))
      with (euclid p p' + path_length ((p' :: ps) ++ [q])).
    rewrite IH.
    + simpl. lra.
    + simpl in *. rewrite Nat.sub_0_r in *. exact Hl.
Qed.

Lemma tour_length_valid (locs_ : list point) (actions : list Z) :
  actions <> [] ->
  Forall (fun a => (0 <= a < Z.of_nat (length locs_))%Z) actions ->
  tour_length locs_ actions = Ok (route_length locs_ actions).
Proof.
  intros Hne Hall. unfold tour_length.
  rewrite (mapM_Ok (gather locs_) (loc_of locs_)).
  2:{ eapply Forall_impl; [exact Hall|]. intros a Ha. simpl in Ha.
      destruct (gather_in_range locs_ a Ha) as [x Hx]. rewrite Hx. f_equal.
      apply gather_Ok in Hx as [_ Hx]. unfold loc_of. rewrite Hx. reflexivity. }
  rewrite bind_ret, legs_path_length.
  set (d := loc_of locs_ <$> actions).
  destruct actions as [|a0 rest]; [contradiction|].
  apply Forall_cons in Hall as Ha0. destruct Ha0 as [Ha0 _].
  assert (exists depot, locs_ !! 0%nat = Some depot) as [depot Hdepot].
  { apply lookup_lt_is_Some_2. lia. }
  assert (exists last_, d !! (length d - 1)%nat = Some last_) as [last_ Hlast].
  { apply lookup_lt_is_Some_2. unfold d. rewrite length_fmap. simpl. lia. }
  unfold item. rewrite Hdepot, Hlast.
  assert (d !! 0%nat = Some (loc_of locs_ a0)) as -> by reflexivity.
  rewrite !bind_ret. f_equal. unfold route_length. fold d.
  assert (loc_of locs_ 0 = depot) as ->.
  { unfold loc_of. change (Z.to_nat 0) with 0%nat. rewrite Hdepot. reflexivity. }
  assert (d = loc_of locs_ a0 :: (loc_of locs_ <$> rest)) as Hd by reflexivity.
  clearbody d. subst d.
  change (path_length (depot :: (loc_of locs_ a0 :: (loc_of locs_ <$> rest)) ++ [depot]))
    with (euclid depot (loc_of locs_ a0)
          + path_length ((loc_of locs_ a0 :: (loc_of locs_ <$> rest)) ++ [depot])).
  rewrite (path_length_snoc _ last_ depot Hlast).
  rewrite !norm_psub, (euclid_sym (loc_of locs_ a0) depot). lra.
Qed.

Lemma duplicates_check_false (row : list Z) :
  increasing_or_zero (merge_sort Z.le row) = false <-> repeated_nonzero row.
Proof.
  pose proof (duplicates_check row) as Hchk. split.
  - intros Hf. destruct (repeated_nonzero_dec row) as [H|H]; [exact H|].
    apply Hchk in H. rewrite H in Hf. discriminate Hf.
  - intros Hrep. destruct (increasing_or_zero (merge_sort Z.le row));
      [|reflexivity].
    exfalso. apply Hchk; [reflexivity | exact Hrep].
Qed.

Lemma forallb_false_Exists {A} (f : A -> bool) (l : list A) :
  forallb f l = false <-> Exists (fun x => f x = false) l.
Proof.
  induction l as [|x l IH]; simpl.
  - split; [intros H; discriminate H | intros H; inversion H].
  - rewrite andb_false_iff, Exists_cons, IH. reflexivity.
Qed.

Lemma negb_forallb {A} (f : A -> bool) (l : list A) (P : A -> Prop) :
  (forall x, f x = false <-> P x) ->
  (negb (forallb f l) = true <-> Exists P l) /\
  (negb (forallb f l) = false <-> ~ Exists P l).
Proof.
  intros Hf.
  assert (forallb f l = false <-> Exists P l) as H.
  { rewrite forallb_false_Exists.
    split; intros HE; (eapply Exists_impl; [exact HE|]); intros x; apply Hf. }
  destruct (forallb f l); simpl; split; split.
  - intros H'. discriminate H'.
  - intros HE. apply H in HE. discriminate HE.
  - intros _ HE. apply H in HE. discriminate HE.
  - reflexivity.
  - intros _. apply H. reflexivity.
  - reflexivity.
  - intros H'. discriminate H'.
  - intros HE. exfalso. apply HE. apply H. reflexivity.
Qed.

(** ** Tour validation: [get_reward] *)

Lemma forallb_fmap {A B} (f : B -> bool) (g : A -> B) (l : list A) :
  forallb f (g <$> l) = forallb (fun x => f (g x)) l.
Proof.
  induction l as [|x l IH]; [reflexivity|].
  rewrite fmap_cons. cbn [forallb]. rewrite IH. reflexivity.
Qed.

Lemma get_reward_valid (self : OPEnv) (batch : list (State * list Z)) :
  Forall valid_row batch ->
  get_reward self batch =
    if negb (forallb (fun row => increasing_or_zero (merge_sort Z.le row.2)) batch)
    then Raise (AssertionError Duplicates)
    else if negb (forallb (fun row => Rleb (route_length (locs row.1) row.2)
                                        (self_length_capacity self + 1e-5)) batch)
         then Raise (AssertionError Max_length_exceeded)
         else Ok ((fun row => prize_collect row.1) <$> batch).
Proof.
  intros Hvalid. unfold get_reward. rewrite forallb_fmap.
  destruct (negb (forallb _ batch)); [reflexivity|].
  rewrite (mapM_Ok _ (fun row => route_length (locs row.1) row.2)).
  - rewrite bind_ret, forallb_fmap. reflexivity.
  - eapply Forall_impl; [exact Hvalid|]. intros row [Hne Hall].
    apply tour_length_valid; assumption.
Qed.




(** The specification's failing example: the sequence [0, 3, 3, 0] on an
    instance of three nodes raises the duplicate assertion. *)
Lemma get_reward_duplicates :
  get_reward env20 [(td_three, [0%Z; 3%Z; 3%Z; 0%Z])]
  = Raise (AssertionError Duplicates).
Proof.
  rewrite get_reward_valid.
  - cbn [forallb fst snd].
    rewrite (proj2 (duplicates_check_false [0%Z; 3%Z; 3%Z; 0%Z])); [reflexivity|].
    exists 1%nat, 2%nat, 3%Z. repeat split; [lia | lia].
  - apply Forall_cons. split; [|apply Forall_nil_2].
    split; [discriminate|]. simpl.
    repeat (apply Forall_cons; split; [unfold is_node; simpl; lia|]).
    apply Forall_nil_2.
Qed.

(** Outside that contract the tensor operations raise before the second
    assertion is reached: an index that is no node fails in [gather], an
    empty sequence in the read of its first entry. *)
Lemma get_reward_index_out_of_range :
  get_reward env20 [(td_small, [7%Z])] = Raise RuntimeError.
Proof. reflexivity. Qed.

Lemma get_reward_empty_sequence :
  get_reward env20 [(td_small, [])] = Raise IndexError.
Proof. reflexivity. Qed.

(** * Further properties of the environment *)

(** ** Bounds of [_step] *)

Lemma gather_out_of_range {A} (l : list A) (i : Z) :
  ~ (0 <= i < Z.of_nat (length l))%Z -> gather l i = Raise RuntimeError.
Proof.
  intros Hi. unfold gather. case_bool_decide as H0; [|reflexivity].
  destruct (l !! Z.to_nat i) as [x|] eqn:Hx; [|reflexivity].
  apply lookup_lt_Some in Hx. exfalso. apply Hi. lia.
Qed.

(** X1 (bounds of a step).  On a state whose per-node fields have one entry
    per node, [_step] succeeds exactly when the action and the current node are indices of
    nodes; any other index, negative ones included, makes it raise the
    runtime error of the tensor library. *)
Theorem step_bounds (td : State) (a : Z) :
  length (prize td) = length (locs td) ->
  length (length_to_depot td) = length (locs td) ->
  (is_node td a /\ is_node td (current_node td) -> exists r, _step td a = Ok r) /\
  (~ (is_node td a /\ is_node td (current_node td)) ->
   _step td a = Raise RuntimeError).
Proof.
  intros Hp Hd. split.
  - intros [Ha Hc].
    destruct (_step_wf td a (mk_wf td Hp Hd Hc) Ha)
      as (p & x & y & m0 & _ & _ & _ & _ & Heq).
    eexists. exact Heq.
  - intros Hno. unfold _step.
    destruct (decide (0 <= a < Z.of_nat (length (locs td)))%Z) as [Ha|Ha].
    + assert (~ is_node td (current_node td)) as Hc.
      { intros Hc. apply Hno. split; [exact Ha | exact Hc]. }
      destruct (gather_in_range (prize td) a) as [p ->]; [lia|].
      rewrite bind_ret.
      rewrite (proj2 (scatter_Ok (prize td) _ a 0)) by (split; [lia | reflexivity]).
      rewrite bind_ret.
      destruct (gather_in_range (locs td) a) as [x ->]; [lia|].
      rewrite bind_ret.
      rewrite (gather_out_of_range (locs td) (current_node td)) by exact Hc.
      reflexivity.
    + rewrite (gather_out_of_range (prize td) a) by (rewrite Hp; exact Ha).
      reflexivity.
Qed.

Lemma step_bounds_witness :
  length (prize td_small) = length (locs td_small) /\
  length (length_to_depot td_small) = length (locs td_small) /\
  (is_node td_small 1 /\ is_node td_small (current_node td_small) ->
   exists r, _step td_small 1 = Ok r) /\
  (~ (is_node td_small (-1) /\ is_node td_small (current_node td_small)) ->
   _step td_small (-1) = Raise RuntimeError).
Proof.
  split; [reflexivity|]. split; [reflexivity|].
  split.
  - exact (proj1 (step_bounds td_small 1 eq_refl eq_refl)).
  - exact (proj2 (step_bounds td_small (-1) eq_refl eq_refl)).
Defined.

(** ** The mask and the done flag of [_step], entry by entry *)

Lemma step_mask_lookup (td : State) (a : Z) (x y : point) (v : nat) (p : R)
    (l : point) (d : R) :
  step_prize td a !! v = Some p -> locs td !! v = Some l ->
  length_to_depot td !! v = Some d ->
  step_mask td a x y !! v
  = Some (Rgtb p 0 && Rleb (euclid x l + d) (step_capacity td x y)).
Proof.
  intros Hp Hl Hd. unfold step_mask. apply mask_rule_lookup.
  exists p, l, d. repeat (split; [assumption|]).
  rewrite norm_psub, euclid_sym. reflexivity.
Qed.

Lemma step_done_iff (td : State) (a : Z) (x y : point) :
  step_done td a x y = true <-> forall v, step_mask td a x y !! v <> Some true.
Proof.
  unfold step_done. rewrite done_iff, count_nonzero_0. reflexivity.
Qed.

(** X2 (the mask is exact).  In the state returned by [_step] a node is
    flagged legal exactly when it is feasible (a positive prize and a round
    trip, from the new current node through it and on to the depot, within
    the remaining capacity) or it is the depot of a step that is done: no
    feasible node is ever masked out. *)
Theorem step_mask_exact (td : State) (a : Z) (r : Next) (v : nat) (p : R)
    (l c : point) (d : R) :
  wf_state td -> is_node td a -> _step td a = Ok r ->
  prize (next r) !! v = Some p -> locs (next r) !! v = Some l ->
  length_to_depot (next r) !! v = Some d ->
  locs (next r) !! Z.to_nat (current_node (next r)) = Some c ->
  action_mask (next r) !! v
  = Some (feasible p c l d (length_capacity (next r))
          || (bool_decide (v = 0%nat) && done r)).
Proof.
  intros Hwf Ha Hr Hp Hl Hd Hc.
  destruct (_step_wf td a Hwf Ha) as (p0 & x & y & m0 & _ & Hx & _ & Hm0 & Heq).
  rewrite Heq in Hr. injection Hr as <-. simpl in *.
  rewrite Hx in Hc. injection Hc as <-.
  pose proof (step_mask_lookup td a x y v p l d Hp Hl Hd) as Hv.
  unfold feasible. destruct (decide (v = 0%nat)) as [->|Hne].
  - rewrite list_lookup_insert_eq by (apply lookup_lt_Some in Hv; exact Hv).
    rewrite Hv in Hm0. injection Hm0 as <-.
    rewrite bool_decide_eq_true_2 by reflexivity. reflexivity.
  - rewrite list_lookup_insert_ne by auto. rewrite Hv.
    rewrite bool_decide_eq_false_2 by exact Hne.
    rewrite orb_false_r. reflexivity.
Qed.

Lemma step_mask_exact_witness :
  exists r,
    wf_state td_small /\ is_node td_small 1 /\ _step td_small 1 = Ok r /\
    prize (next r) !! 1%nat = Some 0 /\
    locs (next r) !! 1%nat = Some (0.5, 0) /\
    length_to_depot (next r) !! 1%nat = Some 0.5 /\
    locs (next r) !! Z.to_nat (current_node (next r)) = Some (0.5, 0) /\
    action_mask (next r) !! 1%nat
    = Some (feasible 0 (0.5, 0) (0.5, 0) 0.5 (length_capacity (next r))
            || (bool_decide (1%nat = 0%nat) && done r)).
Proof.
  destruct td_small_step as (x & y & Hr).
  eexists. split; [exact td_small_wf|]. split; [exact td_small_node|].
  split; [exact Hr|]. repeat (split; [reflexivity|]).
  exact (step_mask_exact td_small 1 _ 1%nat 0 (0.5, 0) (0.5, 0) 0.5
           td_small_wf td_small_node Hr eq_refl eq_refl eq_refl eq_refl).
Defined.

(** X3 (done).  The done flag of [_step] is set exactly when no node at all
    is feasible in the returned state.  The mask then flags the depot and
    nothing else; otherwise it flags at least one feasible node. *)
Theorem step_done_spec (td : State) (a : Z) (r : Next) :
  wf_state td -> is_node td a -> _step td a = Ok r ->
  (done r = true <->
   forall v p l d c,
     prize (next r) !! v = Some p -> locs (next r) !! v = Some l ->
     length_to_depot (next r) !! v = Some d ->
     locs (next r) !! Z.to_nat (current_node (next r)) = Some c ->
     feasible p c l d (length_capacity (next r)) = false) /\
  (done r = true ->
   action_mask (next r) !! 0%nat = Some true /\
   forall v, v <> 0%nat -> (v < length (locs (next r)))%nat ->
     action_mask (next r) !! v = Some false) /\
  (done r = false ->
   exists v p l d c,
     action_mask (next r) !! v = Some true /\
     prize (next r) !! v = Some p /\ locs (next r) !! v = Some l /\
     length_to_depot (next r) !! v = Some d /\
     locs (next r) !! Z.to_nat (current_node (next r)) = Some c /\
     feasible p c l d (length_capacity (next r)) = true).
Proof.
  intros Hwf Ha Hr.
  destruct (_step_wf td a Hwf Ha) as (p0 & x & y & m0 & _ & Hx & _ & Hm0 & Heq).
  rewrite Heq in Hr. injection Hr as <-. simpl.
  pose proof (step_mask_length td a x y Hwf) as Hlen.
  assert (forall v b, step_mask td a x y !! v = Some b ->
            exists p l d, step_prize td a !! v = Some p /\ locs td !! v = Some l /\
              length_to_depot td !! v = Some d /\
              b = feasible p x l d (step_capacity td x y)) as Hrule.
  { intros v b Hv. apply mask_rule_lookup in Hv as (p & l & d & Hp & Hl & Hd & ->).
    exists p, l, d. repeat (split; [assumption|]).
    unfold feasible. rewrite norm_psub, euclid_sym. reflexivity. }
  split; [|split].
  - rewrite step_done_iff. split.
    + intros Hnone v p l d c Hp Hl Hd Hc. rewrite Hx in Hc. injection Hc as <-.
      pose proof (step_mask_lookup td a x y v p l d Hp Hl Hd) as Hv.
      fold (feasible p x l d (step_capacity td x y)) in Hv.
      destruct (feasible p x l d (step_capacity td x y)); [|reflexivity].
      exfalso. exact (Hnone v Hv).
    + intros Hall v Hv. destruct (Hrule v true Hv) as (p & l & d & Hp & Hl & Hd & Hb).
      rewrite (Hall v p l d x Hp Hl Hd Hx) in Hb. discriminate Hb.
  - intros Hdone. pose proof (proj1 (step_done_iff td a x y) Hdone) as Hnone.
    split.
    + rewrite list_lookup_insert_eq by (apply lookup_lt_Some in Hm0; exact Hm0).
      rewrite Hdone, orb_true_r. reflexivity.
    + intros v Hv Hlt. rewrite list_lookup_insert_ne by auto.
      destruct (lookup_lt_is_Some_2 (step_mask td a x y) v) as [b Hb]; [lia|].
      rewrite Hb. destruct b; [|reflexivity]. exfalso. exact (Hnone v Hb).
  - intros Hdone.
    assert (exists v, step_mask td a x y !! v = Some true) as [v Hv].
    { assert (count_nonzero (step_mask td a x y) <> 0%nat) as Hcnt.
      { intros H0. apply done_iff in H0. unfold step_done in Hdone.
        rewrite H0 in Hdone. discriminate Hdone. }
      unfold count_nonzero in Hcnt.
      destruct (filter (fun b => b = true) (step_mask td a x y)) as [|b bs] eqn:Hf;
        [contradiction|].
      assert (b ∈ filter (fun b => b = true) (step_mask td a x y)) as Hin
        by (rewrite Hf; left).
      apply list_elem_of_filter in Hin as [-> Hin].
      apply list_elem_of_lookup in Hin. exact Hin. }
    destruct (Hrule v true Hv) as (p & l & d & Hp & Hl & Hd & Hb).
    exists v, p, l, d, x. split.
    { destruct (decide (v = 0%nat)) as [->|Hne].
      - rewrite list_lookup_insert_eq by (apply lookup_lt_Some in Hm0; exact Hm0).
        rewrite Hv in Hm0. injection Hm0 as <-. reflexivity.
      - rewrite list_lookup_insert_ne by auto. exact Hv. }
    repeat (split; [assumption|]). symmetry. exact Hb.
Qed.

Lemma step_done_spec_witness :
  exists r,
    wf_state td_small /\ is_node td_small 1 /\ _step td_small 1 = Ok r /\
    done r = true /\
    action_mask (next r) !! 0%nat = Some true /\
    forall v, v <> 0%nat -> (v < length (locs (next r)))%nat ->
      action_mask (next r) !! v = Some false.
Proof.
  destruct td_small_step as (x & y & Hr).
  eexists. split; [exact td_small_wf|]. split; [exact td_small_node|].
  split; [exact Hr|]. split; [reflexivity|].
  exact (proj1 (proj2 (step_done_spec td_small 1 _ td_small_wf td_small_node Hr))
           eq_refl).
Defined.

(** ** Repeating a step *)

Lemma euclid_self (x : point) : euclid x x = 0.
Proof.
  unfold euclid. replace ((x.1 - x.1) ^ 2 + (x.2 - x.2) ^ 2) with 0 by ring.
  apply sqrt_0.
Qed.

(** X4 (a repeated step changes nothing).  A second step on the node just
    visited returns the very result of the first: no prize is left on the
    node, the agent does not move, so capacity, prizes, mask and done flag
    are the same.  This is what lets finished batch elements go on choosing
    the depot while the others finish. *)
Theorem step_repeat (td : State) (a : Z) (r : Next) :
  wf_state td -> is_node td a -> _step td a = Ok r -> _step (next r) a = Ok r.
Proof.
  intros Hwf Ha Hr.
  pose proof (_step_preserves_wf td a r Hwf Ha Hr) as Hwf1.
  destruct (_step_wf td a Hwf Ha) as (p & x & y & m0 & Hp & Hx & Hy & Hm0 & Heq).
  rewrite Heq in Hr. injection Hr as <-.
  assert (is_node (next (step_next td a p x y m0)) a) as Ha1 by exact Ha.
  destruct (_step_wf _ a Hwf1 Ha1) as (p' & x' & y' & m0' & Hp' & Hx' & Hy' & Hm0' & ->).
  simpl in Hp', Hx', Hy'.
  rewrite Hx in Hx', Hy'. injection Hx' as <-. injection Hy' as <-.
  assert (p' = 0) as ->.
  { unfold step_prize in Hp'.
    rewrite list_lookup_insert_eq in Hp' by (apply lookup_lt_Some in Hp; exact Hp).
    injection Hp' as <-. reflexivity. }
  set (td1 := next (step_next td a p x y m0)) in *.
  assert (step_capacity td1 x x = step_capacity td x y) as Hcap.
  { unfold step_capacity at 1. rewrite norm_psub, euclid_self.
    unfold td1. simpl. lra. }
  assert (step_prize td1 a = step_prize td a) as Hprize.
  { unfold step_prize, td1. simpl. unfold step_prize.
    apply list_insert_insert_eq. }
  assert (step_mask td1 a x x = step_mask td a x y) as Hmask.
  { unfold step_mask. rewrite Hcap, Hprize. reflexivity. }
  assert (step_done td1 a x x = step_done td a x y) as Hdone.
  { unfold step_done. rewrite Hmask. reflexivity. }
  rewrite Hmask, Hm0 in Hm0'. injection Hm0' as <-.
  unfold step_next. rewrite Hcap, Hprize, Hmask, Hdone. f_equal.
  unfold td1. simpl. f_equal. f_equal. lra.
Qed.

Lemma step_repeat_witness :
  exists r,
    wf_state td_small /\ is_node td_small 1 /\ _step td_small 1 = Ok r /\
    _step (next r) 1 = Ok r.
Proof.
  destruct td_small_step as (x & y & Hr).
  eexists. split; [exact td_small_wf|]. split; [exact td_small_node|].
  split; [exact Hr|].
  exact (step_repeat td_small 1 _ td_small_wf td_small_node Hr).
Defined.

(** ** Episodes that follow the mask *)

Lemma init_capacity_pos (N : option Z) (lo hi pmin pmax : option R) (self : OPEnv) :
  __init__ N lo hi pmin pmax = Ok self -> 0 < self_length_capacity self.
Proof.
  unfold __init__. intros H. apply bind_Ok in H as (c & Hc & H).
  injection H as <-. simpl. unfold getitem in Hc.
  set (n := default 10%Z N) in Hc.
  assert (MAX_LENGTHS !! 20%Z = Some 2.0) as E20 by reflexivity.
  assert (MAX_LENGTHS !! 50%Z = Some 3.0) as E50 by reflexivity.
  assert (MAX_LENGTHS !! 100%Z = Some 4.0) as E100 by reflexivity.
  destruct (decide (n = 20%Z)) as [Hn|H20];
    [rewrite Hn, E20 in Hc; injection Hc as <-; lra|].
  destruct (decide (n = 50%Z)) as [Hn|H50];
    [rewrite Hn, E50 in Hc; injection Hc as <-; lra|].
  destruct (decide (n = 100%Z)) as [Hn|H100];
    [rewrite Hn, E100 in Hc; injection Hc as <-; lra|].
  rewrite MAX_LENGTHS_None in Hc by assumption. discriminate Hc.
Qed.

Lemma flagged_is_node (td : State) (a : Z) :
  length (action_mask td) = length (locs td) -> flagged td a -> is_node td a.
Proof.
  intros Hlen [H0 Hm]. apply lookup_lt_Some in Hm. unfold is_node. lia.
Qed.

Lemma reset_state_safe (self : OPEnv) (td : Instance_) :
  0 <= self_length_capacity self ->
  length (td_prize td) = length (td_locs td) ->
  safe (reset_state self td).
Proof.
  intros Hcap Hlen.
  assert (length_to_depot (reset_state self td)
          = (fun l => euclid l (td_depot td)) <$> locs (reset_state self td)) as Hltd.
  { cbn [reset_state length_to_depot locs]. apply list_fmap_ext.
    intros i l _. apply norm_psub. }
  split.
  - apply reset_state_wf. exact Hlen.
  - cbn [reset_state action_mask locs]. apply mask_rule_length.
    + simpl. rewrite Hlen. reflexivity.
    + rewrite length_fmap. reflexivity.
  - exists (td_depot td). split; [reflexivity | exact Hltd].
  - intros d Hd. rewrite Hltd in Hd. simpl in Hd. injection Hd as <-.
    rewrite euclid_self. exact Hcap.
  - intros v p l d c Hv Hne Hp Hl Hd Hc.
    cbn [reset_state action_mask] in Hv.
    apply mask_rule_lookup in Hv as (p' & l' & d' & Hp' & Hl' & Hd' & Hb).
    cbn [reset_state prize locs length_to_depot current_node length_capacity] in *.
    rewrite Hp in Hp'. rewrite Hl in Hl'. rewrite Hd in Hd'.
    injection Hp' as <-. injection Hl' as <-. injection Hd' as <-.
    simpl in Hc. injection Hc as <-.
    symmetry in Hb. apply andb_true_iff in Hb as [H1 H2].
    apply Rgtb_true in H1. apply Rleb_true in H2.
    rewrite norm_psub, euclid_sym in H2. split; lra.
Qed.

Lemma safe_step (td : State) (a : Z) :
  safe td -> flagged td a ->
  exists r, _step td a = Ok r /\ safe (next r) /\
    exists x y, locs td !! Z.to_nat a = Some x /\
      locs td !! Z.to_nat (current_node td) = Some y /\
      length_capacity (next r) = length_capacity td - euclid y x.
Proof.
  intros Hsafe Hflag. pose proof Hsafe as [Hwf Hml (depot & Hdepot & Hltd) Hhome Hmask].
  pose proof (flagged_is_node td a Hml Hflag) as Ha.
  destruct (_step_wf td a Hwf Ha) as (p & x & y & m0 & Hp & Hx & Hy & Hm0 & Heq).
  exists (step_next td a p x y m0). split; [exact Heq|]. split.
  2:{ exists x, y. repeat (split; [assumption|]). simpl. unfold step_capacity.
      rewrite norm_psub, euclid_sym. reflexivity. }
  assert (forall l, locs td !! Z.to_nat a = Some l ->
            length_to_depot td !! Z.to_nat a = Some (euclid l depot)) as Hlta.
  { intros l Hl. rewrite Hltd, list_lookup_fmap, Hl. reflexivity. }
  assert (euclid x depot <= step_capacity td x y) as Hhome'.
  { unfold step_capacity. rewrite norm_psub.
    destruct Hflag as [Ha0 Hfl].
    destruct (decide (Z.to_nat a = 0%nat)) as [Hz|Hnz].
    - rewrite Hz in Hx. rewrite Hdepot in Hx. injection Hx as <-.
      rewrite euclid_self.
      specialize (Hhome (euclid y depot)).
      rewrite Hltd, list_lookup_fmap, Hy in Hhome. specialize (Hhome eq_refl).
      rewrite (euclid_sym depot y). lra.
    - destruct (Hmask (Z.to_nat a) p x (euclid x depot) y Hfl Hnz Hp Hx
                  (Hlta x Hx) Hy) as [_ Hle].
      rewrite (euclid_sym x y). lra. }
  split.
  - exact (_step_preserves_wf td a _ Hwf Ha Heq).
  - simpl. rewrite length_insert. rewrite step_mask_length by exact Hwf. reflexivity.
  - exists depot. split; [exact Hdepot | exact Hltd].
  - intros d Hd. simpl in Hd. rewrite (Hlta x Hx) in Hd. injection Hd as <-.
    exact Hhome'.
  - intros v p' l d c Hv Hne Hp' Hl Hd Hc. simpl in *.
    rewrite Hx in Hc. injection Hc as <-.
    rewrite list_lookup_insert_ne in Hv by auto.
    rewrite (step_mask_lookup td a x y v p' l d Hp' Hl Hd) in Hv.
    injection Hv as Hv. apply andb_true_iff in Hv as [H1 H2].
    apply Rgtb_true in H1. apply Rleb_true in H2. split; assumption.
Qed.

Lemma loc_of_lookup (locs_ : list point) (a : Z) (x : point) :
  locs_ !! Z.to_nat a = Some x -> loc_of locs_ a = x.
Proof. intros H. unfold loc_of. rewrite H. reflexivity. Qed.

(** What a rollout keeps and where it ends. *)
Lemma rollout_inv (td : State) (acts : list Z) (s : State) :
  safe td -> rollout td acts s ->
  safe s /\ episode td acts = Ok s /\ Forall (is_node td) acts /\
  locs s = locs td /\
  current_node s = default (current_node td) (last acts) /\
  exists c cs,
    locs td !! Z.to_nat (current_node td) = Some c /\
    locs td !! Z.to_nat (current_node s) = Some cs /\
    (c :: (loc_of (locs td) <$> acts)) !! length acts = Some cs /\
    length_capacity s
    = length_capacity td - path_length (c :: (loc_of (locs td) <$> acts)).
Proof.
  intros Hsafe Hroll. induction Hroll as [td|td a r rest s Hflag Hstep Hroll IH].
  - split; [exact Hsafe|]. split; [reflexivity|]. split; [apply Forall_nil_2|].
    split; [reflexivity|]. split; [reflexivity|].
    destruct Hsafe as [[_ _ Hc] _ _ _ _].
    destruct (lookup_lt_is_Some_2 (locs td) (Z.to_nat (current_node td)))
      as [c Hlc]; [lia|].
    exists c, c. repeat (split; [assumption || reflexivity|]). simpl. lra.
  - destruct (safe_step td a Hsafe Hflag)
      as (r' & Hstep' & Hsafe' & x & y & Hx & Hy & Hcap).
    rewrite Hstep in Hstep'. injection Hstep' as <-.
    assert (locs (next r) = locs td /\ current_node (next r) = a) as [Hlocs Hcur].
    { apply _step_inv in Hstep as (p & x0 & y0 & mask1 & m0 & _ & _ & _ & _ & ->).
      split; reflexivity. }
    destruct (IH Hsafe') as (Hs & Hep & Hall & Hls & Hcs & c & cs & Hc & Hcs' & Hlast & Hcaps).
    unfold is_node in Hall. rewrite Hlocs, Hcur in *. rewrite Hx in Hc. injection Hc as <-.
    split; [exact Hs|]. split; [rewrite episode_cons, Hstep; exact Hep|].
    split.
    { apply Forall_cons. split.
      - destruct Hsafe as [_ Hml _ _ _]. exact (flagged_is_node td a Hml Hflag).
      - exact Hall. }
    split; [exact Hls|]. split.
    { rewrite Hcs, last_cons. destruct (last rest); reflexivity. }
    exists y, cs. split; [exact Hy|]. split; [exact Hcs'|]. split.
    { rewrite fmap_cons, (loc_of_lookup _ _ _ Hx). exact Hlast. }
    rewrite Hcaps, Hcap, fmap_cons, (loc_of_lookup _ _ _ Hx).
    cbn [path_length]. lra.
Qed.

Lemma step_keeps_zero (td : State) (a : Z) (r : Next) (v : nat) :
  _step td a = Ok r -> prize td !! v = Some 0 -> prize (next r) !! v = Some 0.
Proof.
  intros Hstep Hv.
  apply _step_inv in Hstep as (p & x & y & mask1 & m0 & _ & _ & _ & _ & ->).
  simpl. destruct (decide (Z.to_nat a = v)) as [<-|Hne].
  - apply list_lookup_insert_eq. apply lookup_lt_Some in Hv. exact Hv.
  - rewrite list_lookup_insert_ne by exact Hne. exact Hv.
Qed.

(** A node other than the depot whose prize is 0 is never chosen. *)
Lemma zero_never_chosen (td : State) (acts : list Z) (s : State) (v : Z) :
  safe td -> rollout td acts s ->
  v <> 0%Z -> prize td !! Z.to_nat v = Some 0 -> v ∉ acts.
Proof.
  intros Hsafe Hroll Hv. induction Hroll as [td|td a r rest s Hflag Hstep Hroll IH].
  - intros _. apply not_elem_of_nil.
  - intros Hz Hin.
    destruct (safe_step td a Hsafe Hflag) as (r' & Hstep' & Hsafe' & _).
    rewrite Hstep in Hstep'. injection Hstep' as <-.
    apply elem_of_cons in Hin as [->|Hin].
    + pose proof Hsafe as [[_ _ Hc] Hml (depot & _ & Hltd) _ Hmask].
      destruct Hflag as [Ha0 Hfl].
      pose proof (lookup_lt_Some _ _ _ Hfl) as Hlt. rewrite Hml in Hlt.
      destruct (lookup_lt_is_Some_2 (locs td) (Z.to_nat a)) as [l Hl]; [exact Hlt|].
      destruct (lookup_lt_is_Some_2 (locs td) (Z.to_nat (current_node td)))
        as [c Hlc]; [lia|].
      assert (length_to_depot td !! Z.to_nat a = Some (euclid l depot)) as Hd.
      { rewrite Hltd, list_lookup_fmap, Hl. reflexivity. }
      destruct (Hmask (Z.to_nat a) 0 l _ c Hfl ltac:(lia) Hz Hl Hd Hlc) as [Hpos _].
      lra.
    + exact (IH Hsafe' (step_keeps_zero td a r _ Hstep Hz) Hin).
Qed.

Lemma rollout_nonzero_NoDup (td : State) (acts : list Z) (s : State) :
  safe td -> rollout td acts s -> NoDup (nonzero acts).
Proof.
  intros Hsafe Hroll. induction Hroll as [td|td a r rest s Hflag Hstep Hroll IH].
  - apply NoDup_nil_2.
  - destruct (safe_step td a Hsafe Hflag) as (r' & Hstep' & Hsafe' & _).
    rewrite Hstep in Hstep'. injection Hstep' as <-.
    unfold nonzero. rewrite filter_cons. fold (nonzero rest).
    destruct (decide (a <> 0%Z)) as [Ha|Ha]; [|exact (IH Hsafe')].
    apply NoDup_cons. split; [|exact (IH Hsafe')].
    intros Hin. apply list_elem_of_filter in Hin as [_ Hin].
    refine (zero_never_chosen (next r) rest s a Hsafe' Hroll Ha _ Hin).
    destruct Hsafe as [Hwf Hml _ _ _].
    pose proof (flagged_is_node td a Hml Hflag) as Hnode.
    destruct (prize_at_step td a r Hwf Hnode Hstep) as [Hz _]. exact Hz.
Qed.

Lemma rollout_prize (td : State) (acts : list Z) (s : State) :
  safe td -> prize td !! 0%nat = Some 0 -> rollout td acts s ->
  prize_collect s = prize_collect td + sum_list (prize_at td <$> acts).
Proof.
  intros Hsafe Hz Hroll. induction Hroll as [td|td a r rest s Hflag Hstep Hroll IH].
  - simpl. lra.
  - destruct (safe_step td a Hsafe Hflag) as (r' & Hstep' & Hsafe' & _).
    rewrite Hstep in Hstep'. injection Hstep' as <-.
    pose proof Hsafe as [Hwf Hml _ _ _].
    pose proof (flagged_is_node td a Hml Hflag) as Hnode.
    destruct (prize_at_step td a r Hwf Hnode Hstep) as (Hza & Hpc & Hzero & Hsame).
    rewrite (IH Hsafe' (step_keeps_zero td a r _ Hstep Hz)), Hpc.
    rewrite fmap_cons. cbn [sum_list foldr]. fold (sum_list (prize_at td <$> rest)).
    assert (sum_list (prize_at (next r) <$> rest) = sum_list (prize_at td <$> rest))
      as ->; [|lra].
    f_equal. apply list_fmap_ext. intros i v Hv.
    destruct (rollout_inv (next r) rest s Hsafe' Hroll) as (_ & _ & Hall & _).
    rewrite Forall_forall in Hall.
    assert (v ∈ rest) as Hin by (apply list_elem_of_lookup; eauto).
    destruct (Hall v Hin) as [Hv0 _].
    destruct (decide (v = a)) as [->|Hne]; [|apply Hsame; assumption].
    destruct (decide (a = 0%Z)) as [->|Ha0].
    + rewrite Hzero. unfold prize_at. change (Z.to_nat 0) with 0%nat.
      rewrite Hz. reflexivity.
    + exfalso. exact (zero_never_chosen (next r) rest s a Hsafe' Hroll Ha0 Hza Hin).
Qed.

Lemma reset_safe (N : option Z) (lo hi pmin pmax : option R) (self : OPEnv)
    (td : Instance_) (sample : list point) (s0 : State) :
  __init__ N lo hi pmin pmax = Ok self ->
  length (td_prize td) = length (td_locs td) ->
  _reset self (Some td) sample = Ok s0 ->
  s0 = reset_state self td /\ safe s0.
Proof.
  intros Hinit Hlen Hreset. rewrite (_reset_wf self td sample Hlen) in Hreset.
  injection Hreset as <-. split; [reflexivity|].
  apply reset_state_safe; [|exact Hlen].
  pose proof (init_capacity_pos _ _ _ _ _ _ Hinit). lra.
Qed.

(** The rollout of the small instance: visit the node, return to the
    depot. *)
Lemma rollout_small : exists s, rollout td_small [1%Z; 0%Z] s.
Proof.
  destruct td_small_step as (x & y & Hr).
  match type of Hr with _ = Ok ?r0 => set (r := r0) in Hr end.
  assert (wf_state (next r)) as Hwf
    by (split; simpl; [reflexivity | reflexivity | lia]).
  assert (is_node (next r) 0) as Hn by (unfold is_node; simpl; lia).
  destruct (_step_wf (next r) 0 Hwf Hn) as (p & x' & y' & m0 & _ & _ & _ & _ & Heq).
  eexists. eapply rollout_cons; [|exact Hr|].
  - split; [lia | reflexivity].
  - eapply rollout_cons; [|exact Heq | apply rollout_nil].
    split; [lia | reflexivity].
Defined.

(** X6 (no node twice, and what is collected).  In an episode that starts
    from the state [_reset] returns and only takes actions the mask flags,
    no node other than the depot is chosen twice, and the prize collected at
    the end is the sum of the prizes the visited nodes carried at the
    start. *)
Theorem rollout_collects (N : option Z) (lo hi pmin pmax : option R) (self : OPEnv)
    (td : Instance_) (sample : list point) (s0 : State) (acts : list Z) (s : State) :
  __init__ N lo hi pmin pmax = Ok self ->
  length (td_prize td) = length (td_locs td) ->
  _reset self (Some td) sample = Ok s0 ->
  rollout s0 acts s ->
  ~ repeated_nonzero acts /\
  prize_collect s = sum_list (prize_at s0 <$> acts).
Proof.
  intros Hinit Hlen Hreset Hroll.
  destruct (reset_safe _ _ _ _ _ _ _ _ _ Hinit Hlen Hreset) as [-> Hsafe].
  split.
  - apply NoDup_nonzero_repeated.
    exact (rollout_nonzero_NoDup _ acts s Hsafe Hroll).
  - rewrite (rollout_prize _ acts s Hsafe eq_refl Hroll). simpl. lra.
Qed.

Lemma rollout_collects_witness :
  exists s,
    __init__ (Some 20%Z) None None None None = Ok env20 /\
    length (td_prize inst_small) = length (td_locs inst_small) /\
    _reset env20 (Some inst_small) [] = Ok td_small /\
    rollout td_small [1%Z; 0%Z] s /\
    ~ repeated_nonzero [1%Z; 0%Z] /\
    prize_collect s = sum_list (prize_at td_small <$> [1%Z; 0%Z]).
Proof.
  destruct rollout_small as [s Hs]. exists s.
  split; [exact env20_init|]. split; [reflexivity|].
  split; [exact td_small_reset|]. split; [exact Hs|].
  exact (rollout_collects (Some 20%Z) None None None None env20 inst_small []
           td_small [1%Z; 0%Z] s env20_init eq_refl td_small_reset Hs).
Defined.

(** ** [get_reward] on arbitrary batches *)

Lemma mapM_Raise {A B} (f : A -> result B) (l : list A) (e : exn) :
  mapM f l = Raise e -> Exists (fun x => f x = Raise e) l.
Proof.
  induction l as [|x l IH]; cbn [mapM]; [intros H; discriminate H|].
  fold (mapM f l). destruct (f x) as [y|e'] eqn:Hx.
  - rewrite bind_ret. destruct (mapM f l) as [k|e''] eqn:Hl.
    + intros H. discriminate H.
    + intros [= ->]. apply Exists_cons. right. apply IH. reflexivity.
  - intros [= ->]. apply Exists_cons. left. exact Hx.
Qed.

Lemma mapM_Exists_Raise {A B} (f : A -> result B) (l : list A) :
  Exists (fun x => raises (f x)) l -> raises (mapM f l).
Proof.
  induction 1 as [x l [e Hx]|x l _ [e IH]]; cbn [mapM]; fold (mapM f l).
  - rewrite Hx. exists e. reflexivity.
  - destruct (f x) as [y|e']; [|exists e'; reflexivity].
    rewrite bind_ret, IH. exists e. reflexivity.
Qed.

Lemma gather_Raise {A} (l : list A) (i : Z) (e : exn) :
  gather l i = Raise e -> e = RuntimeError.
Proof.
  unfold gather. case_bool_decide as H0; [|intros [= <-]; reflexivity].
  destruct (l !! Z.to_nat i); [intros Hg; discriminate Hg|].
  intros [= <-]. reflexivity.
Qed.

Lemma item_Raise {A} (l : list A) (i : nat) (e : exn) :
  item l i = Raise e -> e = IndexError.
Proof.
  unfold item. destruct (l !! i); [intros H; discriminate H|].
  intros [= <-]. reflexivity.
Qed.

Lemma tour_length_Raise (locs_ : list point) (actions : list Z) (e : exn) :
  tour_length locs_ actions = Raise e -> e = RuntimeError \/ e = IndexError.
Proof.
  unfold tour_length.
  destruct (mapM (gather locs_) actions) as [d|e'] eqn:Hd.
  - rewrite bind_ret.
    destruct (item d 0) as [first|e1] eqn:H1;
      [|intros [= <-]; right; exact (item_Raise _ _ _ H1)].
    rewrite bind_ret.
    destruct (item locs_ 0) as [depot|e2] eqn:H2;
      [|intros [= <-]; right; exact (item_Raise _ _ _ H2)].
    rewrite bind_ret.
    destruct (item d (length d - 1)) as [last_|e3] eqn:H3;
      [|intros [= <-]; right; exact (item_Raise _ _ _ H3)].
    intros H. discriminate H.
  - intros [= <-]. left. apply mapM_Raise in Hd. apply Exists_exists in Hd.
    destruct Hd as (a & _ & Ha). exact (gather_Raise _ _ _ Ha).
Qed.

Lemma tour_length_invalid (locs_ : list point) (actions : list Z) :
  actions = [] \/
  Exists (fun a => ~ (0 <= a < Z.of_nat (length locs_))%Z) actions ->
  raises (tour_length locs_ actions).
Proof.
  intros [->|Hex]; [exists IndexError; reflexivity|].
  unfold tour_length.
  destruct (mapM_Exists_Raise (gather locs_) actions) as [e He].
  - eapply Exists_impl; [exact Hex|]. intros a Ha.
    exists RuntimeError. apply gather_out_of_range. exact Ha.
  - rewrite He. exists e. reflexivity.
Qed.

Lemma get_reward_no_duplicate (self : OPEnv) (batch : list (State * list Z)) :
  ~ some_duplicate batch ->
  get_reward self batch =
    mapM (fun row => tour_length (locs row.1) row.2) batch ≫= fun length_ =>
    if negb (forallb (fun l => Rleb l (self_length_capacity self + 1e-5)) length_)
    then Raise (AssertionError Max_length_exceeded)
    else Ok ((fun row => prize_collect row.1) <$> batch).
Proof.
  intros Hnd. unfold get_reward. rewrite forallb_fmap.
  destruct (negb_forallb
              (fun row : State * list Z => increasing_or_zero (merge_sort Z.le row.2))
              batch (fun row => repeated_nonzero row.2)) as [_ H0].
  { intros row. apply duplicates_check_false. }
  rewrite (proj2 H0 Hnd). reflexivity.
Qed.

(** X8 (the duplicate assertion comes first).  On any batch, valid or not,
    [get_reward] raises the "Duplicates" assertion exactly when some row
    repeats an index other than 0: the check runs on the raw indices,
    before any of them is used to read a location. *)
Theorem duplicates_first (self : OPEnv) (batch : list (State * list Z)) :
  get_reward self batch = Raise (AssertionError Duplicates) <->
  some_duplicate batch.
Proof.
  destruct (negb_forallb
              (fun row : State * list Z => increasing_or_zero (merge_sort Z.le row.2))
              batch (fun row => repeated_nonzero row.2)) as [H1 H0].
  { intros row. apply duplicates_check_false. }
  fold (some_duplicate batch) in H1, H0.
  destruct (negb (forallb _ batch)) eqn:Hb.
  - assert (some_duplicate batch) as Hdup by (apply H1; reflexivity).
    split; [intros _; exact Hdup|]. intros _.
    unfold get_reward. rewrite forallb_fmap, Hb. reflexivity.
  - assert (~ some_duplicate batch) as Hnd by (apply H0; reflexivity).
    split; [|intros Hdup; contradiction].
    rewrite (get_reward_no_duplicate self batch Hnd).
    destruct (mapM _ batch) as [length_|e] eqn:Hm.
    + rewrite bind_ret. destruct (negb (forallb _ length_)); intros H; discriminate H.
    + intros [= ->]. apply mapM_Raise in Hm. apply Exists_exists in Hm.
      destruct Hm as (row & _ & Hrow).
      apply tour_length_Raise in Hrow as [Hrow|Hrow]; discriminate Hrow.
Qed.

(** X9 (no reward for an invalid row).  When no row repeats an index but
    some row is empty or holds an index that is no node, [get_reward]
    raises the runtime or index error of the tensor library: it neither
    returns a reward nor reaches the length assertion. *)
Theorem invalid_row_raises (self : OPEnv) (batch : list (State * list Z)) :
  ~ some_duplicate batch ->
  Exists (fun row => row.2 = [] \/ Exists (fun a => ~ is_node row.1 a) row.2) batch ->
  get_reward self batch = Raise RuntimeError \/
  get_reward self batch = Raise IndexError.
Proof.
  intros Hnd Hex. rewrite (get_reward_no_duplicate self batch Hnd).
  destruct (mapM_Exists_Raise
              (fun row : State * list Z => tour_length (locs row.1) row.2) batch)
    as [e He].
  { eapply Exists_impl; [exact Hex|]. intros row Hrow.
    apply tour_length_invalid. exact Hrow. }
  rewrite He. pose proof He as Hm. apply mapM_Raise in Hm.
  apply Exists_exists in Hm. destruct Hm as (row & _ & Hrow).
  apply tour_length_Raise in Hrow as [->| ->]; [left | right]; reflexivity.
Qed.

Lemma invalid_row_raises_witness :
  ~ some_duplicate [(td_small, [7%Z])] /\
  Exists (fun row : State * list Z =>
            row.2 = [] \/ Exists (fun a => ~ is_node row.1 a) row.2)
    [(td_small, [7%Z])] /\
  (get_reward env20 [(td_small, [7%Z])] = Raise RuntimeError \/
   get_reward env20 [(td_small, [7%Z])] = Raise IndexError).
Proof.
  assert (~ some_duplicate [(td_small, [7%Z])]) as Hnd.
  { intros H. apply Exists_cons in H as [H|H]; [|inversion H].
    destruct H as (i & j & x & Hij & Hi & Hj & _). simpl in Hi, Hj.
    destruct i as [|i], j as [|j]; try discriminate; contradiction. }
  assert (Exists (fun row : State * list Z =>
                    row.2 = [] \/ Exists (fun a => ~ is_node row.1 a) row.2)
            [(td_small, [7%Z])]) as Hex.
  { apply Exists_cons. left. right. apply Exists_cons. left.
    unfold is_node. simpl. lia. }
  split; [exact Hnd|]. split; [exact Hex|].
  exact (invalid_row_raises env20 _ Hnd Hex).
Defined.

(** ** More on generated instances *)

Lemma foldr_Rmax_in (x : R) (xs : list R) : foldr Rmax x xs ∈ x :: xs.
Proof.
  induction xs as [|z xs IH]; simpl; [left|].
  destruct (Rle_dec z (foldr Rmax x xs)) as [Hle|Hgt].
  - rewrite Rmax_right by exact Hle.
    apply elem_of_cons in IH as [->|IH]; [left | right; right; exact IH].
  - rewrite Rmax_left by lra. right. left.
Qed.

Lemma max_attained (xs : list R) (m : R) : max_ xs = Ok m -> m ∈ xs.
Proof.
  destruct xs as [|x xs]; simpl; [intros H; discriminate H|].
  intros [= <-]. apply foldr_Rmax_in.
Qed.






(** ** [_reset] on generated and on ill-shaped instances *)



(** X14 (an ill-shaped instance).  When the instance passed to [_reset] has
    prizes and locations, but not one prize per location, the two factors
    of the mask cannot be combined and [_reset] raises. *)
Theorem reset_shape_error (self : OPEnv) (td : Instance_) (sample : list point) :
  td_prize td <> [] -> td_locs td <> [] ->
  length (td_prize td) <> length (td_locs td) ->
  _reset self (Some td) sample = Raise RuntimeError.
Proof.
  intros Hp Hl Hne. unfold _reset. rewrite bind_ret.
  rewrite (proj2 (gather_Ok (td_depot td :: td_locs td) 0 (td_depot td)))
    by (split; [lia | reflexivity]).
  rewrite bind_ret.
  rewrite broadcast_same_length by (rewrite !length_fmap; reflexivity).
  rewrite bind_ret.
  destruct (td_prize td) as [|p ps]; [contradiction|].
  destruct (td_locs td) as [|l ls]; [contradiction|].
  cbn [fmap list_fmap zip_with broadcast].
  rewrite bool_decide_eq_false_2; [reflexivity|].
  simpl. rewrite !length_fmap, length_zip_with, !length_fmap. simpl in Hne. lia.
Qed.

Lemma reset_shape_error_witness :
  [0.5; 0.5] <> ([] : list R) /\ [unit_x] <> [] /\
  length [0.5; 0.5] <> length [unit_x] /\
  _reset env20
    (Some {| td_locs := [unit_x]; td_depot := origin; td_prize := [0.5; 0.5] |}) []
  = Raise RuntimeError.
Proof.
  assert ([0.5; 0.5] <> ([] : list R)) as Hp by discriminate.
  assert ([unit_x] <> []) as Hl by discriminate.
  assert (length [0.5; 0.5] <> length [unit_x]) as Hne by (simpl; lia).
  split; [exact Hp|]. split; [exact Hl|]. split; [exact Hne|].
  exact (reset_shape_error env20
           {| td_locs := [unit_x]; td_depot := origin; td_prize := [0.5; 0.5] |}
           [] Hp Hl Hne).
Defined.

(** * Prize generation in single precision *)

(** ** Rounding to the nearest integer *)

Lemma ZnearestE_bound (x : R) :
  IZR (ZnearestE x) - 1 / 2 <= x <= IZR (ZnearestE x) + 1 / 2.
Proof.
  unfold ZnearestE. pose proof (Zfloor_bound x) as [Hl Hu].
  repeat case_bool_decide; [lra | rewrite plus_IZR; lra |].
  destruct (Z.even (Zfloor x)); [lra | rewrite plus_IZR; lra].
Qed.

Lemma ZnearestE_unique (x : R) (n : Z) :
  IZR n - 1 / 2 < x < IZR n + 1 / 2 -> ZnearestE x = n.
Proof.
  intros [Hl Hu]. pose proof (ZnearestE_bound x) as [Hl' Hu'].
  assert (IZR (ZnearestE x) < IZR n + 1) as H1 by lra.
  assert (IZR n < IZR (ZnearestE x) + 1) as H2 by lra.
  rewrite <- plus_IZR in H1, H2. apply lt_IZR in H1, H2. lia.
Qed.

Lemma ZnearestE_IZR (n : Z) : ZnearestE (IZR n) = n.
Proof. apply ZnearestE_unique. lra. Qed.

Lemma ZnearestE_mono (x y : R) : x <= y -> (ZnearestE x <= ZnearestE y)%Z.
Proof.
  intros Hxy. destruct (Z_le_gt_dec (ZnearestE x) (ZnearestE y)) as [H|H]; [exact H|].
  pose proof (ZnearestE_bound x) as [Hx _].
  pose proof (ZnearestE_bound y) as [_ Hy].
  assert (ZnearestE y + 1 <= ZnearestE x)%Z as H1 by lia.
  apply IZR_le in H1. rewrite plus_IZR in H1.
  assert (x = y) as -> by lra. lia.
Qed.

(** ** Powers of two and the binary exponent *)

Lemma pow2_pos (z : Z) : 0 < powerRZ 2 z.
Proof. apply powerRZ_lt. lra. Qed.

Lemma pow2_add (a b : Z) : powerRZ 2 (a + b) = powerRZ 2 a * powerRZ 2 b.
Proof. apply powerRZ_add. lra. Qed.

Lemma pow2_IZR (z : Z) : (0 <= z)%Z -> powerRZ 2 z = IZR (2 ^ z).
Proof.
  intros Hz. destruct z as [|p|p]; [reflexivity | | lia].
  simpl powerRZ. rewrite pow_IZR, positive_nat_Z. reflexivity.
Qed.

Lemma pow2_le (a b : Z) : (a <= b)%Z -> powerRZ 2 a <= powerRZ 2 b.
Proof.
  intros Hab. replace b with (a + (b - a))%Z by lia. rewrite pow2_add.
  assert (1 <= powerRZ 2 (b - a)) as H1.
  { rewrite pow2_IZR by lia. apply IZR_le.
    pose proof (Z.pow_pos_nonneg 2 (b - a)). lia. }
  pose proof (pow2_pos a). nra.
Qed.

Lemma pow2_lt (a b : Z) : (a < b)%Z -> powerRZ 2 a < powerRZ 2 b.
Proof.
  intros Hab. replace b with (a + 1 + (b - a - 1))%Z by lia.
  rewrite !pow2_add. change (powerRZ 2 1) with (2 * 1).
  assert (1 <= powerRZ 2 (b - a - 1)) as H1.
  { rewrite pow2_IZR by lia. apply IZR_le.
    pose proof (Z.pow_pos_nonneg 2 (b - a - 1)). lia. }
  pose proof (pow2_pos a). nra.
Qed.

Lemma pow2_lt_inv (a b : Z) : powerRZ 2 a < powerRZ 2 b -> (a < b)%Z.
Proof.
  intros H. destruct (Z_lt_le_dec a b) as [Hab|Hab]; [exact Hab|].
  pose proof (pow2_le b a Hab). lra.
Qed.

Lemma ln2_pos : 0 < ln 2.
Proof. pose proof ln_lt_2. lra. Qed.

Lemma pow2_exp (z : Z) : powerRZ 2 z = exp (IZR z * ln 2).
Proof. rewrite powerRZ_Rpower by lra. reflexivity. Qed.

Lemma mag_spec (x : R) :
  x <> 0 -> powerRZ 2 (mag x - 1) <= Rabs x < powerRZ 2 (mag x).
Proof.
  intros Hx. assert (0 < Rabs x) as Hpos by (apply Rabs_pos_lt; exact Hx).
  unfold mag. set (t := ln (Rabs x) / ln 2).
  pose proof (Zfloor_bound t) as [Hl Hu]. pose proof ln2_pos as Hln.
  assert (t * ln 2 = ln (Rabs x)) as Ht by (unfold t; field; lra).
  assert (Rabs x = exp (t * ln 2)) as Hexp by (rewrite Ht, exp_ln; auto).
  replace (Zfloor t + 1 - 1)%Z with (Zfloor t) by lia.
  rewrite !pow2_exp, plus_IZR, Hexp. split.
  - destruct (Rle_lt_or_eq_dec _ _ Hl) as [Hlt| ->]; [|lra].
    left. apply exp_increasing. nra.
  - apply exp_increasing. nra.
Qed.

Lemma mag_unique (x : R) (e : Z) :
  powerRZ 2 (e - 1) <= Rabs x < powerRZ 2 e -> mag x = e.
Proof.
  intros [Hl Hu]. pose proof (pow2_pos (e - 1)) as Hp.
  assert (x <> 0) as Hx by (intros ->; rewrite Rabs_R0 in Hl; lra).
  destruct (mag_spec x Hx) as [Hl' Hu'].
  assert (mag x - 1 < e)%Z by (apply pow2_lt_inv; lra).
  assert (e - 1 < mag x)%Z by (apply pow2_lt_inv; lra).
  lia.
Qed.

Lemma mag_le (x : R) (e : Z) : x <> 0 -> Rabs x < powerRZ 2 e -> (mag x <= e)%Z.
Proof.
  intros Hx Hu. destruct (mag_spec x Hx) as [Hl' _].
  assert (mag x - 1 < e)%Z by (apply pow2_lt_inv; lra). lia.
Qed.

Lemma mag_mono (x y : R) : 0 < x -> x <= y -> (mag x <= mag y)%Z.
Proof.
  intros Hx Hxy.
  destruct (mag_spec x) as [Hl _]; [lra|].
  destruct (mag_spec y) as [_ Hu]; [lra|].
  rewrite Rabs_pos_eq in Hl, Hu by lra.
  assert (mag x - 1 < mag y)%Z by (apply pow2_lt_inv; lra). lia.
Qed.

(** ** Rounding to [float32] *)

Lemma rnd32_0 : rnd32 0 = 0.
Proof. unfold rnd32. rewrite Rmult_0_l, ZnearestE_IZR. lra. Qed.

Lemma rnd32_nonneg (x : R) : 0 <= x -> 0 <= rnd32 x.
Proof.
  intros Hx. unfold rnd32. apply Rmult_le_pos; [|left; apply pow2_pos].
  apply IZR_le. rewrite <- (ZnearestE_IZR 0). apply ZnearestE_mono.
  apply Rmult_le_pos; [exact Hx | left; apply pow2_pos].
Qed.

(** The scaled value of a multiple of a power of two that is at least the
    last place. *)
Lemma scaled_dyadic (n c c0 : Z) :
  (c0 <= c)%Z -> IZR n * powerRZ 2 c * powerRZ 2 (- c0) = IZR (n * 2 ^ (c - c0)).
Proof.
  intros Hc. rewrite mult_IZR, <- pow2_IZR by lia.
  replace (c - c0)%Z with (c + - c0)%Z by lia. rewrite pow2_add. ring.
Qed.

Lemma unscaled_dyadic (n c c0 : Z) :
  (c0 <= c)%Z -> IZR (n * 2 ^ (c - c0)) * powerRZ 2 c0 = IZR n * powerRZ 2 c.
Proof.
  intros Hc. rewrite mult_IZR, <- pow2_IZR by lia.
  rewrite Rmult_assoc, <- pow2_add. replace (c - c0 + c0)%Z with c by lia.
  reflexivity.
Qed.

(** A multiple of a power of two that is at least the last place of [x]
    bounds the rounding of [x] as it bounds [x]. *)
Lemma rnd32_le_dyadic (x : R) (n c : Z) :
  x <= IZR n * powerRZ 2 c -> (fexp32 (mag x) <= c)%Z ->
  rnd32 x <= IZR n * powerRZ 2 c.
Proof.
  intros Hx Hc. unfold rnd32. set (c0 := fexp32 (mag x)) in *.
  rewrite <- (unscaled_dyadic n c c0 Hc).
  apply Rmult_le_compat_r; [left; apply pow2_pos|].
  apply IZR_le. rewrite <- (ZnearestE_IZR (n * 2 ^ (c - c0))).
  apply ZnearestE_mono. rewrite <- (scaled_dyadic n c c0 Hc).
  apply Rmult_le_compat_r; [left; apply pow2_pos | exact Hx].
Qed.

Lemma rnd32_ge_dyadic (x : R) (n c : Z) :
  IZR n * powerRZ 2 c <= x -> (fexp32 (mag x) <= c)%Z ->
  IZR n * powerRZ 2 c <= rnd32 x.
Proof.
  intros Hx Hc. unfold rnd32. set (c0 := fexp32 (mag x)) in *.
  rewrite <- (unscaled_dyadic n c c0 Hc).
  apply Rmult_le_compat_r; [left; apply pow2_pos|].
  apply IZR_le. rewrite <- (ZnearestE_IZR (n * 2 ^ (c - c0))).
  apply ZnearestE_mono. rewrite <- (scaled_dyadic n c c0 Hc).
  apply Rmult_le_compat_r; [left; apply pow2_pos | exact Hx].
Qed.

(** [float32] values round to themselves. *)
Lemma rnd32_representable (x : R) (n c : Z) :
  x = IZR n * powerRZ 2 c -> (fexp32 (mag x) <= c)%Z -> rnd32 x = x.
Proof.
  intros Hx Hc. apply Rle_antisym.
  - rewrite Hx at 2. apply rnd32_le_dyadic; [lra | exact Hc].
  - rewrite Hx at 1. apply rnd32_ge_dyadic; [lra | exact Hc].
Qed.

Lemma rnd32_dyadic (x : R) (n c : Z) :
  x = IZR n * powerRZ 2 c -> (Z.abs n < 2 ^ 24)%Z -> (-149 <= c)%Z -> rnd32 x = x.
Proof.
  intros Hx Hn Hc. destruct (Req_dec_T x 0) as [->|Hx0]; [apply rnd32_0|].
  apply (rnd32_representable x n c Hx).
  assert (mag x <= 24 + c)%Z; [|unfold fexp32; lia].
  apply mag_le; [exact Hx0|].
  rewrite Hx, Rabs_mult, (Rabs_pos_eq (powerRZ 2 c)) by (left; apply pow2_pos).
  rewrite pow2_add, <- abs_IZR. apply Rmult_lt_compat_r; [apply pow2_pos|].
  rewrite pow2_IZR by lia. apply IZR_lt. exact Hn.
Qed.

(** The rounding of a value whose binary exponent [e] is known. *)
Lemma rnd32_eval (x : R) (e n : Z) :
  powerRZ 2 (e - 1) <= Rabs x < powerRZ 2 e -> (-149 <= e - 24)%Z ->
  IZR n - 1 / 2 < x * powerRZ 2 (24 - e) < IZR n + 1 / 2 ->
  rnd32 x = IZR n * powerRZ 2 (e - 24).
Proof.
  intros He Hc Hn. unfold rnd32. rewrite (mag_unique x e He).
  replace (fexp32 e) with (e - 24)%Z by (unfold fexp32; lia).
  replace (- (e - 24))%Z with (24 - e)%Z by lia.
  rewrite (ZnearestE_unique _ n Hn). reflexivity.
Qed.

(** Rounding is monotone. *)
Lemma rnd32_mono (x y : R) : 0 <= x -> x <= y -> rnd32 x <= rnd32 y.
Proof.
  intros Hx Hxy.
  destruct (Req_dec_T x 0) as [->|Hx0]; [rewrite rnd32_0; apply rnd32_nonneg; lra|].
  assert (0 < x) as Hpos by lra.
  pose proof (mag_mono x y Hpos Hxy) as Hmag.
  destruct (Z.eq_dec (fexp32 (mag x)) (fexp32 (mag y))) as [Hc|Hc].
  - unfold rnd32. rewrite Hc.
    apply Rmult_le_compat_r; [left; apply pow2_pos|].
    apply IZR_le, ZnearestE_mono.
    apply Rmult_le_compat_r; [left; apply pow2_pos | exact Hxy].
  - assert (fexp32 (mag x) < mag y - 24)%Z as Hlt by (unfold fexp32 in *; lia).
    assert (fexp32 (mag y) = mag y - 24)%Z as Hy by (unfold fexp32 in *; lia).
    destruct (mag_spec x) as [_ Hux]; [lra|].
    destruct (mag_spec y) as [Hly _]; [lra|].
    rewrite Rabs_pos_eq in Hux, Hly by lra.
    assert (mag x <= mag y - 1)%Z as Hm by (unfold fexp32 in *; lia).
    pose proof (pow2_le _ _ Hm) as Hp.
    apply Rle_trans with (IZR 1 * powerRZ 2 (mag y - 1)).
    + apply rnd32_le_dyadic; [lra | lia].
    + apply rnd32_ge_dyadic; [lra | lia].
Qed.

Lemma rnd32_IZR (k : Z) : (Z.abs k < 2 ^ 24)%Z -> rnd32 (IZR k) = IZR k.
Proof.
  intros Hk. apply (rnd32_dyadic (IZR k) k 0); [simpl; lra | exact Hk | lia].
Qed.

(** The rounding error is at most half a unit in the last place. *)
Lemma rnd32_error (x : R) (e : Z) :
  Rabs x < powerRZ 2 e -> (-149 <= e - 24)%Z ->
  Rabs (rnd32 x - x) <= powerRZ 2 (e - 25).
Proof.
  intros Hx He. pose proof (pow2_pos (e - 25)) as HB.
  destruct (Req_dec_T x 0) as [->|Hx0].
  { rewrite rnd32_0, Rminus_0_r, Rabs_R0. lra. }
  pose proof (mag_le x e Hx0 Hx) as Hmag.
  assert (rnd32 x = IZR (ZnearestE (x * powerRZ 2 (- fexp32 (mag x))))
                    * powerRZ 2 (fexp32 (mag x))) as Hr by reflexivity.
  set (c0 := fexp32 (mag x)) in *. set (s := x * powerRZ 2 (- c0)) in *.
  assert (x = s * powerRZ 2 c0) as Hxs.
  { unfold s. rewrite Rmult_assoc, <- pow2_add, Z.add_opp_diag_l. simpl. ring. }
  pose proof (ZnearestE_bound s) as [Hl Hu].
  pose proof (pow2_pos c0) as HP.
  assert (powerRZ 2 c0 <= 2 * powerRZ 2 (e - 25)) as Hc.
  { replace (2 * powerRZ 2 (e - 25)) with (powerRZ 2 (e - 24)).
    - apply pow2_le. unfold c0, fexp32. lia.
    - replace (e - 24)%Z with (1 + (e - 25))%Z by lia. rewrite pow2_add.
      simpl. lra. }
  rewrite Hr. apply Rabs_le. nra.
Qed.

Lemma Rabs_le_bounds (a b : R) : Rabs a <= b -> - b <= a <= b.
Proof. unfold Rabs. destruct (Rcase_abs a); lra. Qed.

Lemma Zfloor_close (a b : R) :
  Rabs (a - b) < 1 -> (Zfloor b - 1 <= Zfloor a <= Zfloor b + 1)%Z.
Proof.
  intros H. apply Rabs_def2 in H as [H1 H2].
  pose proof (Zfloor_bound a) as [Hal Hau]. pose proof (Zfloor_bound b) as [Hbl Hbu].
  assert (IZR (Zfloor a) < IZR (Zfloor b + 2)) as Ha by (rewrite plus_IZR; lra).
  assert (IZR (Zfloor b) < IZR (Zfloor a + 2)) as Hb by (rewrite plus_IZR; lra).
  apply lt_IZR in Ha, Hb. lia.
Qed.

(** ** The prize of one node *)

(** Quotient, product and tier of a node at computed distance [d] when the
    largest computed distance is [m]. *)
Lemma prize32_range (d m : R) :
  0 <= d <= m -> 0 < m ->
  0 <= rnd32 (d / m) <= 1 /\ 0 <= rnd32 (rnd32 (d / m) * 99) <= 99.
Proof.
  intros [Hd Hdm] Hm.
  assert (0 <= d / m <= 1) as [Hq0 Hq1].
  { split.
    - apply Rmult_le_pos; [lra|]. left. apply Rinv_0_lt_compat. exact Hm.
    - apply (Rmult_le_reg_r m); [exact Hm|]. field_simplify; lra. }
  assert (0 <= rnd32 (d / m) <= 1) as [H0 H1].
  { split; [apply rnd32_nonneg; exact Hq0|].
    apply Rle_trans with (rnd32 1); [apply rnd32_mono; assumption|].
    rewrite (rnd32_IZR 1) by (simpl; lia). lra. }
  split; [split; assumption|]. split; [apply rnd32_nonneg; lra|].
  apply Rle_trans with (rnd32 99); [apply rnd32_mono; lra|].
  rewrite (rnd32_IZR 99) by (simpl; lia). lra.
Qed.

Lemma prize32_spec (d m : R) :
  0 <= d <= m -> 0 < m ->
  let k := (1 + to_int (rnd32 (rnd32 (d / m) * 99)))%Z in
  prize32 d m = Some (rnd32 (IZR k / 100)) /\
  (1 <= k <= 100)%Z /\
  (tier d m - 1 <= k <= tier d m + 1)%Z.
Proof.
  intros Hd Hm k.
  destruct (prize32_range d m Hd Hm) as [[Hq0 Hq1] [Hy0 Hy1]].
  assert (to_int (rnd32 (rnd32 (d / m) * 99)) = Zfloor (rnd32 (rnd32 (d / m) * 99)))
    as Hint by (apply to_int_nonneg; exact Hy0).
  assert (0 <= Zfloor (rnd32 (rnd32 (d / m) * 99)) <= 99)%Z as Hfl.
  { split; [apply Zfloor_lub; simpl; lra|].
    pose proof (Zfloor_le _ 99 Hy1) as Hle. rewrite (ZfloorZ 99) in Hle.
    exact Hle. }
  assert (1 <= k <= 100)%Z as Hk by (unfold k; lia).
  split; [|split; [exact Hk|]].
  - unfold prize32, div32. rewrite decide_False by lra. simpl. fold k.
    rewrite rnd32_IZR by lia. do 2 f_equal. lra.
  - unfold k, tier. rewrite Hint.
    assert (Zfloor (99 * d / m) - 1 <= Zfloor (rnd32 (rnd32 (d / m) * 99))
            <= Zfloor (99 * d / m) + 1)%Z; [|lia].
    apply Zfloor_close.
    destruct Hd as [Hd0 Hdm].
    assert (0 <= d / m <= 1) as [Hr0 Hr1].
    { split.
      - apply Rmult_le_pos; [lra|]. left. apply Rinv_0_lt_compat. exact Hm.
      - apply (Rmult_le_reg_r m); [exact Hm|]. field_simplify; lra. }
    assert (Rabs (rnd32 (d / m) - d / m) <= powerRZ 2 (1 - 25)) as E1.
    { apply rnd32_error; [|lia]. rewrite Rabs_pos_eq by lra. simpl. lra. }
    assert (Rabs (rnd32 (rnd32 (d / m) * 99) - rnd32 (d / m) * 99)
            <= powerRZ 2 (7 - 25)) as E2.
    { apply rnd32_error; [|lia]. rewrite Rabs_pos_eq by lra. simpl. lra. }
    apply Rabs_le_bounds in E1, E2.
    assert (powerRZ 2 (1 - 25) = / 16777216) as P1 by (simpl; lra).
    assert (powerRZ 2 (7 - 25) = / 262144) as P2 by (simpl; lra).
    rewrite P1 in E1. rewrite P2 in E2.
    replace (99 * d / m) with (99 * (d / m)) by (field; lra).
    apply Rabs_def1; lra.
Qed.

Lemma prize32_mono (d1 d2 m p1 p2 : R) :
  0 <= d1 -> d1 <= d2 -> 0 < m ->
  prize32 d1 m = Some p1 -> prize32 d2 m = Some p2 -> p1 <= p2.
Proof.
  intros H1 H12 Hm. unfold prize32, div32. rewrite !decide_False by lra. simpl.
  intros [= <-] [= <-].
  assert (0 <= d1 / m /\ d1 / m <= d2 / m) as [Hq0 Hq].
  { assert (0 < / m) by (apply Rinv_0_lt_compat; exact Hm).
    split; [apply Rmult_le_pos; lra | apply Rmult_le_compat_r; lra]. }
  pose proof (rnd32_nonneg _ Hq0) as Hr0.
  pose proof (rnd32_mono _ _ Hq0 Hq) as Hr.
  assert (0 <= rnd32 (d1 / m) * 99) as Hy0 by lra.
  pose proof (rnd32_nonneg _ Hy0) as Hs0.
  assert (rnd32 (rnd32 (d1 / m) * 99) <= rnd32 (rnd32 (d2 / m) * 99)) as Hs
    by (apply rnd32_mono; lra).
  rewrite !to_int_nonneg by lra.
  pose proof (Zfloor_le _ _ Hs) as Hf.
  assert (0 <= Zfloor (rnd32 (rnd32 (d1 / m) * 99)))%Z as Hf0
    by (apply Zfloor_lub; simpl; lra).
  assert (0 <= IZR (1 + Zfloor (rnd32 (rnd32 (d1 / m) * 99)))) as Hk0
    by (apply IZR_le; lia).
  assert (IZR (1 + Zfloor (rnd32 (rnd32 (d1 / m) * 99)))
          <= IZR (1 + Zfloor (rnd32 (rnd32 (d2 / m) * 99)))) as Hk
    by (apply IZR_le; lia).
  pose proof (rnd32_nonneg _ Hk0) as Hf32.
  pose proof (rnd32_mono _ _ Hk0 Hk) as Hm32.
  apply rnd32_mono; lra.
Qed.

Lemma prize32_undefined (d : R) : prize32 d 0 = None.
Proof. unfold prize32, div32. rewrite decide_True by reflexivity. reflexivity. Qed.

(** ** [generate_data] on a draw *)

(** What [generate_data] returns when the environment has at least one
    node: the first point of the draw is the depot, the next [num_loc] are
    the nodes, and [m] is the largest computed distance. *)
Lemma generate_data32_Ok (vnorm : point -> R) (self : OPEnv) (u : nat -> point) :
  (0 < num_loc self)%Z ->
  exists m,
    max_ (dist32 vnorm (u 0%nat) <$> (u <$> seq 1 (Z.to_nat (num_loc self)))) = Ok m /\
    generate_data32 vnorm self u
    = Ok {| td_locs32 := u <$> seq 1 (Z.to_nat (num_loc self));
            td_depot32 := u 0%nat;
            td_prize32 := (fun d => prize32 d m)
                            <$> (dist32 vnorm (u 0%nat)
                                   <$> (u <$> seq 1 (Z.to_nat (num_loc self)))) |}.
Proof.
  intros Hn. unfold generate_data32. rewrite bool_decide_eq_false_2 by lia.
  replace (Z.to_nat (num_loc self + 1)) with (S (Z.to_nat (num_loc self))) by lia.
  destruct (Z.to_nat (num_loc self)) as [|n] eqn:En; [lia|].
  change (u <$> seq 0 (S (S n))) with (u 0%nat :: (u <$> seq 1 (S n))).
  change (take 1 (u 0%nat :: (u <$> seq 1 (S n)))) with [u 0%nat].
  change (drop 1 (u 0%nat :: (u <$> seq 1 (S n)))) with (u <$> seq 1 (S n)).
  unfold broadcast. rewrite bind_ret.
  change ((fun b => vnorm (psub32 (u 0%nat) b)) <$> (u <$> seq 1 (S n)))
    with (dist32 vnorm (u 0%nat) <$> (u <$> seq 1 (S n))).
  assert (exists m, max_ (dist32 vnorm (u 0%nat) <$> (u <$> seq 1 (S n))) = Ok m)
    as [m Hm] by (eexists; reflexivity).
  exists m. split; [exact Hm|]. rewrite Hm, bind_ret. reflexivity.
Qed.

Lemma init_num_loc (N : option Z) (lo hi pmin pmax : option R) (self : OPEnv) :
  __init__ N lo hi pmin pmax = Ok self ->
  num_loc self = 20%Z \/ num_loc self = 50%Z \/ num_loc self = 100%Z.
Proof.
  unfold __init__. intros H. apply bind_Ok in H as (c & Hc & H).
  injection H as <-. simpl. unfold getitem in Hc.
  set (n := default 10%Z N) in *.
  destruct (decide (n = 20%Z)) as [Hn|H20]; [auto|].
  destruct (decide (n = 50%Z)) as [Hn|H50]; [auto|].
  destruct (decide (n = 100%Z)) as [Hn|H100]; [auto|].
  rewrite MAX_LENGTHS_None in Hc by assumption. discriminate Hc.
Qed.

(** C7 (prize generation), as the code computes it.  For an environment
    built by the constructor, whatever the draw [u] and whatever the norm
    kernel, as long as its results are not negative, [generate_data]
    returns the instance of the first [num_loc + 1] points of the draw.
    Let [m] be the largest computed distance of a node to the depot.  When
    [m] is zero the quotient has no value and no prize is determined.
    When [m] is positive, the node at computed distance [d] has the prize
    [k / 100] rounded to [float32], where [k] is one more than the
    truncation of the rounded product of 99 and the rounded quotient
    [d / m]; [k] is an integer between 1 and 100, at most one tier away
    from [1 + floor (99 * d / m)]; and a node whose computed distance is at
    least that of another has at least its prize. *)
Theorem prize_generation (vnorm : point -> R) (N : option Z)
    (lo hi pmin pmax : option R) (self : OPEnv) (u : nat -> point) :
  (forall p, 0 <= vnorm p) ->
  __init__ N lo hi pmin pmax = Ok self ->
  exists inst m,
    generate_data32 vnorm self u = Ok inst /\
    td_depot32 inst = u 0%nat /\
    td_locs32 inst = u <$> seq 1 (Z.to_nat (num_loc self)) /\
    length (td_prize32 inst) = Z.to_nat (num_loc self) /\
    max_ (dist32 vnorm (td_depot32 inst) <$> td_locs32 inst) = Ok m /\
    0 <= m /\
    (m = 0 -> forall i x, td_prize32 inst !! i = Some x -> x = None) /\
    (0 < m ->
     (forall i l, td_locs32 inst !! i = Some l ->
        let d := dist32 vnorm (td_depot32 inst) l in
        let k := (1 + to_int (rnd32 (rnd32 (d / m) * 99)))%Z in
        td_prize32 inst !! i = Some (Some (rnd32 (IZR k / 100))) /\
        (1 <= k <= 100)%Z /\
        (tier d m - 1 <= k <= tier d m + 1)%Z) /\
     (forall i j li lj pi pj,
        td_locs32 inst !! i = Some li -> td_locs32 inst !! j = Some lj ->
        td_prize32 inst !! i = Some (Some pi) ->
        td_prize32 inst !! j = Some (Some pj) ->
        dist32 vnorm (td_depot32 inst) li <= dist32 vnorm (td_depot32 inst) lj ->
        pi <= pj)).
Proof.
  intros Hnorm Hinit.
  assert (0 < num_loc self)%Z as Hn
    by (destruct (init_num_loc _ _ _ _ _ _ Hinit) as [->|[->| ->]]; lia).
  destruct (generate_data32_Ok vnorm self u Hn) as (m & Hmax & Hgen).
  set (nodes := u <$> seq 1 (Z.to_nat (num_loc self))) in *.
  set (depot := u 0%nat) in *.
  assert (forall l, l ∈ nodes -> 0 <= dist32 vnorm depot l <= m) as Hrange.
  { intros l Hl. split; [apply Hnorm|].
    apply (max_upper _ _ Hmax). apply list_elem_of_fmap. exists l. auto. }
  assert (0 <= m) as Hm0.
  { apply max_attained in Hmax. apply list_elem_of_fmap in Hmax as (l & -> & _).
    apply Hnorm. }
  eexists. exists m. split; [exact Hgen|]. cbn [td_depot32 td_locs32 td_prize32].
  split; [reflexivity|]. split; [reflexivity|].
  split; [unfold nodes; rewrite !length_fmap, length_seq; reflexivity|].
  split; [exact Hmax|]. split; [exact Hm0|]. split.
  - intros -> i x Hx. rewrite !list_lookup_fmap in Hx.
    destruct (nodes !! i) as [l|]; simpl in Hx; [|discriminate Hx].
    injection Hx as <-. apply prize32_undefined.
  - intros Hm.
    assert (forall i l, nodes !! i = Some l ->
              ((fun d => prize32 d m) <$> (dist32 vnorm depot <$> nodes)) !! i
              = Some (prize32 (dist32 vnorm depot l) m)) as Hprize.
    { intros i l Hl. rewrite !list_lookup_fmap, Hl. reflexivity. }
    split.
    + intros i l Hl.
      assert (l ∈ nodes) as Hin by (apply list_elem_of_lookup; eauto).
      destruct (prize32_spec (dist32 vnorm depot l) m (Hrange l Hin) Hm)
        as (Hp & Hk & Ht).
      pose proof (Hprize i l Hl) as E. rewrite Hp in E.
      split; [exact E|]. split; [exact Hk | exact Ht].
    + intros i j li lj pi pj Hi Hj Hpi Hpj Hd.
      pose proof (Hprize i li Hi) as Ei. pose proof (Hprize j lj Hj) as Ej.
      assert (prize32 (dist32 vnorm depot li) m = Some pi) as Hi'
        by (apply (inj Some); rewrite <- Ei; exact Hpi).
      assert (prize32 (dist32 vnorm depot lj) m = Some pj) as Hj'
        by (apply (inj Some); rewrite <- Ej; exact Hpj).
      exact (prize32_mono _ _ m pi pj (Hnorm _) Hd Hm Hi' Hj').
Qed.

(** ** Two draws *)

Lemma norm32_nonneg (p : point) : 0 <= norm32 p.
Proof. unfold norm32. apply rnd32_nonneg, sqrt_pos. Qed.

(** The computed distance to the origin of a point of the x-axis whose
    coordinate has at most 12 significant bits is exact. *)
Lemma dist32_axis (x : R) (n c : Z) :
  x = IZR n * powerRZ 2 c -> (0 <= n < 4096)%Z -> (-74 <= c)%Z ->
  dist32 norm32 origin (x, 0) = x.
Proof.
  intros Hx Hn Hc.
  assert (0 <= x) as Hx0.
  { rewrite Hx. apply Rmult_le_pos; [apply IZR_le; lia | left; apply pow2_pos]. }
  assert (rnd32 (0 - x) = - x) as E1.
  { replace (0 - x) with (- x) by lra.
    apply (rnd32_dyadic (- x) (- n) c); [rewrite opp_IZR; lra | lia | lia]. }
  assert (rnd32 (- x * - x) = x * x) as E2.
  { replace (- x * - x) with (x * x) by ring.
    apply (rnd32_dyadic (x * x) (n * n) (c + c)); [|nia|lia].
    rewrite mult_IZR, pow2_add, Hx. ring. }
  assert (rnd32 (x * x) = x * x) as E3 by (rewrite <- E2 at 2; f_equal; ring).
  assert (rnd32 x = x) as E4 by (apply (rnd32_dyadic x n c); [exact Hx | lia | lia]).
  unfold dist32, psub32, norm32, origin. cbn [fst snd].
  replace (0 - 0) with 0 by lra. rewrite E1, rnd32_0, E2.
  replace (0 * 0) with 0 by lra. rewrite rnd32_0, Rplus_0_r, E3.
  rewrite sqrt_square by exact Hx0. exact E4.
Qed.

Lemma dist32_near : dist32 norm32 origin (0.390625, 0) = 0.390625.
Proof. apply (dist32_axis _ 25 (-6)); [simpl; lra | lia | lia]. Qed.

Lemma dist32_far : dist32 norm32 origin (0.7734375, 0) = 0.7734375.
Proof. apply (dist32_axis _ 99 (-7)); [simpl; lra | lia | lia]. Qed.

(** The prize of the near node: the rounded quotient is just below 50/99,
    its rounded product with 99 just below 50, and the tier is 50. *)
Lemma prize32_near : prize32 0.390625 0.7734375 = Some 0.5.
Proof.
  assert (rnd32 (0.390625 / 0.7734375) = 8473341 / 16777216) as Eq.
  { rewrite (rnd32_eval _ 0 8473341); simpl; lra || (try lia).
    rewrite Rabs_pos_eq by lra. lra. }
  assert (rnd32 (8473341 / 16777216 * 99) = 13107199 / 262144) as Ep.
  { rewrite (rnd32_eval _ 6 13107199); simpl; lra || (try lia).
    rewrite Rabs_pos_eq by lra. lra. }
  assert (to_int (13107199 / 262144) = 49%Z) as Ei.
  { rewrite to_int_nonneg by lra. apply Zfloor_eq. lra. }
  unfold prize32, div32. rewrite decide_False by lra. simpl.
  rewrite Eq, Ep, Ei. change (1 + 49)%Z with 50%Z.
  rewrite (rnd32_IZR 50) by (simpl; lia). f_equal.
  replace (50 / 100.0) with 0.5 by lra.
  apply (rnd32_dyadic _ 1 (-1)); [simpl; lra | simpl; lia | lia].
Qed.

(** The prize of a node at the largest distance. *)
Lemma prize32_top (m : R) : 0 < m -> prize32 m m = Some 1.
Proof.
  intros Hm. unfold prize32, div32. rewrite decide_False by lra. simpl.
  replace (m / m) with 1 by (field; lra).
  rewrite (rnd32_IZR 1) by (simpl; lia). replace (1 * 99) with 99 by lra.
  rewrite (rnd32_IZR 99) by (simpl; lia).
  rewrite to_int_nonneg by lra. rewrite (ZfloorZ 99).
  change (1 + 99)%Z with 100%Z. rewrite (rnd32_IZR 100) by (simpl; lia).
  f_equal. replace (100 / 100.0) with 1 by lra.
  apply (rnd32_IZR 1). simpl. lia.
Qed.

Lemma max_cons_replicate (a b : R) (n : nat) :
  a <= b -> max_ (a :: replicate (S n) b) = Ok b.
Proof.
  intros Hab. unfold max_. f_equal.
  induction n as [|n IH].
  - simpl. apply Rmax_left. exact Hab.
  - change (foldr Rmax a (replicate (S (S n)) b))
      with (Rmax b (foldr Rmax a (replicate (S n) b))).
    rewrite IH. apply Rmax_left. lra.
Qed.

(** The draw on the x-axis, for 20 nodes: the near node gets the prize
    0.5 and the nodes at the largest distance get 1. *)
Lemma generate_axis : generate_data32 norm32 env20 draw_axis = Ok inst_axis.
Proof.
  destruct (generate_data32_Ok norm32 env20 draw_axis) as (m & Hm & Hgen);
    [simpl; lia|].
  change (draw_axis <$> seq 1 (Z.to_nat (num_loc env20)))
    with (((0.390625, 0) : point) :: replicate 19 ((0.7734375, 0) : point)) in *.
  change (draw_axis 0%nat) with origin in *.
  rewrite fmap_cons, fmap_replicate, dist32_near, dist32_far in Hm, Hgen.
  rewrite max_cons_replicate in Hm by lra. injection Hm as <-.
  rewrite Hgen, fmap_cons, fmap_replicate, prize32_near, prize32_top by lra.
  reflexivity.
Qed.

(** The draw that puts every node on the depot: the largest distance is
    zero and no prize is determined. *)
Lemma generate_degenerate :
  generate_data32 norm32 env20 draw_depot
  = Ok {| td_locs32 := replicate 20 origin;
          td_depot32 := origin;
          td_prize32 := replicate 20 None |}.
Proof.
  destruct (generate_data32_Ok norm32 env20 draw_depot) as (m & Hm & Hgen);
    [simpl; lia|].
  change (draw_depot <$> seq 1 (Z.to_nat (num_loc env20)))
    with (replicate 20 origin) in *.
  change (draw_depot 0%nat) with origin in *.
  assert (dist32 norm32 origin origin = 0) as E0
    by (apply (dist32_axis 0 0 0); [simpl; lra | lia | lia]).
  rewrite fmap_replicate, E0 in Hm, Hgen.
  change (replicate 20 0) with (0 :: replicate 19 0) in Hm.
  rewrite max_cons_replicate in Hm by lra. injection Hm as <-.
  rewrite Hgen, fmap_replicate, prize32_undefined. reflexivity.
Qed.

Lemma euclid_axis (x : R) : 0 <= x -> euclid (x, 0) origin = x.
Proof. intros Hx. rewrite <- norm_psub. apply norm_axis. exact Hx. Qed.

(** The claim of C7 fails on the instance of the draw on the x-axis, whose
    coordinates are [float32] values of the unit square.  The near node is
    at the distance 0.390625 and the largest distance is 0.7734375, both
    exact, so [1 + floor (99 * d / dmax)] is 51 and the prize of the claim
    is 0.51; the code rounds the quotient 50/99 down, its product with 99
    stays below 50, and the prize is 0.5.  On the draw that puts every
    node on the depot the largest distance is zero, the quotient of the
    claim has no value, and no prize is determined. *)
Lemma prize_generation_counterexample :
  (forall i, let p := draw_axis i in
     rnd32 p.1 = p.1 /\ rnd32 p.2 = p.2 /\
     min_loc env20 <= p.1 < max_loc env20 /\ min_loc env20 <= p.2 < max_loc env20) /\
  (exists inst0,
     generate_data32 norm32 env20 draw_depot = Ok inst0 /\
     max_ ((fun l => euclid l (td_depot32 inst0)) <$> td_locs32 inst0) = Ok 0 /\
     length (td_prize32 inst0) = 20%nat /\
     forall i x, td_prize32 inst0 !! i = Some x -> x = None) /\
  exists inst l m,
    __init__ (Some 20%Z) None None None None = Ok env20 /\
    generate_data32 norm32 env20 draw_axis = Ok inst /\
    td_locs32 inst !! 0%nat = Some l /\
    max_ ((fun l => euclid l (td_depot32 inst)) <$> td_locs32 inst) = Ok m /\
    IZR (tier (euclid l (td_depot32 inst)) m) / 100 = 0.51 /\
    td_prize32 inst !! 0%nat = Some (Some 0.5) /\
    Some 0.5 <> Some (IZR (tier (euclid l (td_depot32 inst)) m) / 100).
Proof.
  assert (rnd32 0.390625 = 0.390625) as Ea
    by (apply (rnd32_dyadic _ 25 (-6)); [simpl; lra | simpl; lia | lia]).
  assert (rnd32 0.7734375 = 0.7734375) as Eb
    by (apply (rnd32_dyadic _ 99 (-7)); [simpl; lra | simpl; lia | lia]).
  split.
  { intros [|[|i]]; cbn [draw_axis origin env20 min_loc max_loc fst snd];
      rewrite ?rnd32_0, ?Ea, ?Eb; repeat split; lra. }
  split.
  { eexists. split; [exact generate_degenerate|].
    cbn [td_locs32 td_depot32 td_prize32]. split; [|split].
    - rewrite fmap_replicate, euclid_self.
      change (replicate 20 0) with (0 :: replicate 19 0).
      apply max_cons_replicate. lra.
    - apply length_replicate.
    - intros i x Hx. apply lookup_replicate in Hx as [-> _]. reflexivity. }
  assert (IZR (tier 0.390625 0.7734375) / 100 = 0.51) as Et.
  { assert (0.390625 = 25 / 64) as E1 by lra.
    assert (0.7734375 = 99 / 128) as E2 by lra.
    unfold tier. replace (99 * 0.390625 / 0.7734375) with 50
      by (rewrite E1, E2; field).
    rewrite (ZfloorZ 50). change (1 + 50)%Z with 51%Z. lra. }
  exists inst_axis, (0.390625, 0), 0.7734375.
  split; [exact env20_init|]. split; [exact generate_axis|].
  unfold inst_axis. cbn [td_locs32 td_depot32 td_prize32].
  split; [reflexivity|]. split.
  { rewrite fmap_cons, fmap_replicate, !euclid_axis by lra.
    apply max_cons_replicate. lra. }
  rewrite euclid_axis by lra.
  split; [exact Et|]. split; [reflexivity|].
  rewrite Et. intros [= H]. lra.
Qed.

Lemma prize_generation_witness :
  (forall p, 0 <= norm32 p) /\
  __init__ (Some 20%Z) None None None None = Ok env20 /\
  exists inst m,
    generate_data32 norm32 env20 draw_axis = Ok inst /\
    max_ (dist32 norm32 (td_depot32 inst) <$> td_locs32 inst) = Ok m /\
    0 < m /\
    (forall i l, td_locs32 inst !! i = Some l ->
       let d := dist32 norm32 (td_depot32 inst) l in
       let k := (1 + to_int (rnd32 (rnd32 (d / m) * 99)))%Z in
       td_prize32 inst !! i = Some (Some (rnd32 (IZR k / 100))) /\
       (1 <= k <= 100)%Z /\
       (tier d m - 1 <= k <= tier d m + 1)%Z) /\
    (forall i j li lj pi pj,
       td_locs32 inst !! i = Some li -> td_locs32 inst !! j = Some lj ->
       td_prize32 inst !! i = Some (Some pi) ->
       td_prize32 inst !! j = Some (Some pj) ->
       dist32 norm32 (td_depot32 inst) li <= dist32 norm32 (td_depot32 inst) lj ->
       pi <= pj) /\
    td_locs32 inst !! 0%nat = Some (0.390625, 0) /\
    td_locs32 inst !! 1%nat = Some (0.7734375, 0) /\
    td_prize32 inst !! 0%nat = Some (Some 0.5) /\
    td_prize32 inst !! 1%nat = Some (Some 1).
Proof.
  split; [exact norm32_nonneg|]. split; [exact env20_init|].
  destruct (prize_generation norm32 (Some 20%Z) None None None None env20
              draw_axis norm32_nonneg env20_init)
    as (inst & m & Hgen & _ & _ & _ & Hmax & _ & _ & Hpos).
  exists inst, m. split; [exact Hgen|]. split; [exact Hmax|].
  pose proof Hgen as Hinst. rewrite generate_axis in Hinst. injection Hinst as <-.
  assert (0 < m) as Hm.
  { unfold inst_axis in Hmax. cbn [td_depot32 td_locs32] in Hmax.
    rewrite fmap_cons, fmap_replicate, dist32_near, dist32_far in Hmax.
    rewrite max_cons_replicate in Hmax by lra. injection Hmax as <-. lra. }
  split; [exact Hm|]. destruct (Hpos Hm) as [Hprize Hmono].
  split; [exact Hprize|]. split; [exact Hmono|].
  repeat split; reflexivity.
Defined.

(** * The decode type of [AttentionModelPolicy.forward] *)

Lemma list_ascii_app (s t : string) :
  list_ascii_of_string (s +:+ t)
  = (list_ascii_of_string s ++ list_ascii_of_string t)%list.
Proof. induction s as [|a s IH]; simpl; [reflexivity | rewrite IH; reflexivity]. Qed.

Lemma string_app_inv_tail (s1 s2 t : string) : s1 +:+ t = s2 +:+ t -> s1 = s2.
Proof.
  intros H. apply (f_equal list_ascii_of_string) in H.
  rewrite !list_ascii_app in H. apply app_inv_tail in H.
  rewrite <- (string_of_list_ascii_of_string s1),
          <- (string_of_list_ascii_of_string s2), H.
  reflexivity.
Qed.

Lemma getattr_decode_type_spec (self : AttentionModelPolicy) (phase : string) :
  getattr_decode_type self phase =
    if decide (phase = "train"%string) then Some (train_decode_type self)
    else if decide (phase = "val"%string) then Some (val_decode_type self)
    else if decide (phase = "test"%string) then Some (test_decode_type self)
    else None.
Proof.
  unfold getattr_decode_type, decode_type_attrs.
  assert (forall p : string,
            phase <> p -> (p +:+ "_decode_type")%string <> (phase +:+ "_decode_type")%string)
    as Hne.
  { intros p Hp Heq. apply Hp. symmetry. exact (string_app_inv_tail _ _ _ Heq). }
  destruct (decide (phase = "train"%string)) as [->|Htrain].
  { apply lookup_insert_eq. }
  rewrite lookup_insert_ne by exact (Hne "train"%string Htrain).
  destruct (decide (phase = "val"%string)) as [->|Hval].
  { apply lookup_insert_eq. }
  rewrite lookup_insert_ne by exact (Hne "val"%string Hval).
  destruct (decide (phase = "test"%string)) as [->|Htest].
  { apply lookup_singleton_eq. }
  apply lookup_singleton_ne. exact (Hne "test"%string Htest).
Qed.

(** X15 (the decode type).  A [decode_type] keyword other than [None] is
    handed to the decoder as it is, whatever the phase, even an unknown one.
    Without it, or with [None], [forward] fills in the policy's decode type
    for the phase ["train"], ["val"] or ["test"] and leaves the other
    keywords alone; any other phase raises [AttributeError]. *)
Theorem decode_type_resolution (self : AttentionModelPolicy) (phase : string)
    (kw : gmap string pyobj) :
  (forall v, kw !! "decode_type"%string = Some v -> v <> PyNone ->
     resolve_decode_type self phase kw = Kwargs kw) /\
  (kw !! "decode_type"%string = None \/ kw !! "decode_type"%string = Some PyNone ->
   (phase = "train"%string ->
      resolve_decode_type self phase kw
      = Kwargs (<["decode_type"%string := PyStr (train_decode_type self)]> kw)) /\
   (phase = "val"%string ->
      resolve_decode_type self phase kw
      = Kwargs (<["decode_type"%string := PyStr (val_decode_type self)]> kw)) /\
   (phase = "test"%string ->
      resolve_decode_type self phase kw
      = Kwargs (<["decode_type"%string := PyStr (test_decode_type self)]> kw)) /\
   (phase <> "train"%string -> phase <> "val"%string -> phase <> "test"%string ->
      resolve_decode_type self phase kw = AttributeError)).
Proof.
  split.
  - intros v Hv Hnone. unfold resolve_decode_type. rewrite Hv. simpl.
    destruct v; [contradiction | reflexivity | reflexivity].
  - intros Hmissing.
    assert (default PyNone (kw !! "decode_type"%string) = PyNone) as Hget
      by (destruct Hmissing as [-> | ->]; reflexivity).
    unfold resolve_decode_type. rewrite Hget, getattr_decode_type_spec.
    split; [|split; [|split]].
    + intros ->. reflexivity.
    + intros ->. reflexivity.
    + intros ->. reflexivity.
    + intros Htrain Hval Htest.
      rewrite !decide_False by assumption. reflexivity.
Qed.

Lemma decode_type_resolution_witness :
  (forall v, ({[ "decode_type"%string := PyStr "beam_search" ]} : gmap string pyobj)
             !! "decode_type"%string = Some v -> v <> PyNone ->
     resolve_decode_type (policy_init None None None) "warmup"
       {[ "decode_type"%string := PyStr "beam_search" ]}
     = Kwargs {[ "decode_type"%string := PyStr "beam_search" ]}) /\
  ((∅ : gmap string pyobj) !! "decode_type"%string = None /\
   resolve_decode_type (policy_init None None None) "train" ∅
   = Kwargs (<["decode_type"%string := PyStr "sampling"]> ∅) /\
   resolve_decode_type (policy_init None None None) "warmup" ∅ = AttributeError).
Proof.
  split.
  - exact (proj1 (decode_type_resolution (policy_init None None None) "warmup"
                    {[ "decode_type"%string := PyStr "beam_search" ]})).
  - assert ((∅ : gmap string pyobj) !! "decode_type"%string = None) as Hempty
      by apply lookup_empty.
    split; [exact Hempty|].
    destruct (proj2 (decode_type_resolution (policy_init None None None) "train" ∅)
                (or_introl Hempty)) as (Htrain & _).
    destruct (proj2 (decode_type_resolution (policy_init None None None) "warmup" ∅)
                (or_introl Hempty)) as (_ & _ & _ & Hother).
    split; [exact (Htrain eq_refl)|].
    apply Hother; discriminate.
Defined.
